(** * Fluid-Simulation: the noise-driven flow field and the particle kinematics

  A shallow embedding of [src/FlowField.js] (class [FlowField]), of the
  [Particle] class that follows it and of [src/ParticleSystem.js] (class
  [ParticleSystem], without its rendering objects), over the real numbers.

  JavaScript numbers are modelled as mathematical reals ([R]); the integer
  values that index the permutation table are [Z], with the bit masks of
  the source written with [Z.land].  [Math.random()] is an input: every
  function that draws random numbers takes the drawn values as arguments.
  Mutation of [this] is explicit state passing: a method takes the object
  and returns the updated object. *)

From Stdlib Require Import Reals Lra Lia ZArith List Psatz String Bool.
Import ListNotations.
Open Scope R_scope.

(** ** The [Math] built-ins the program calls *)

Module JSMath.

(** [Math.floor]: the greatest integer below or equal to the argument. *)
Definition floor (r : R) : Z := Int_part r.

(** [Math.abs].  [Math.sqrt], [Math.cos], [Math.sin] and [Math.PI] are the
    Standard Library's [sqrt], [cos], [sin] and [PI]. *)
Definition abs (r : R) : R := Rabs r.

(** [Math.atan2(y, x)]: the angle of the point [(x, y)], in (-PI, PI]. *)
Definition atan2 (y x : R) : R :=
  if Rlt_dec 0 x then atan (y / x)
  else if Rlt_dec x 0 then
    (if Rle_dec 0 y then atan (y / x) + PI else atan (y / x) - PI)
  else if Rlt_dec 0 y then PI / 2
  else if Rlt_dec y 0 then - (PI / 2)
  else 0.

(** [r1 < r2] and [r1 > r2] as the booleans a JavaScript condition tests. *)
Definition ltb (r1 r2 : R) : bool := if Rlt_dec r1 r2 then true else false.
Definition gtb (r1 r2 : R) : bool := if Rgt_dec r1 r2 then true else false.

(** [r1 <= r2] as a boolean. *)
Definition leb (r1 r2 : R) : bool := if Rle_dec r1 r2 then true else false.

(** [Math.round]: the nearest integer, halves going up. *)
Definition round (r : R) : Z := floor (r + 0.5).

(** Rounding towards zero, and the remainder operator [a % b] on numbers:
    the remainder takes the sign of the dividend. *)
Definition trunc (r : R) : Z :=
  if Rle_dec 0 r then floor r else (- floor (- r))%Z.
Definition rem (a b : R) : R := a - b * IZR (trunc (a / b)).

(** The conversion to a signed 32-bit integer that the bit operators apply
    to their operands, and [a << n], [a | b] on integers. *)
Definition toInt32 (z : Z) : Z := ((z + 2 ^ 31) mod 2 ^ 32 - 2 ^ 31)%Z.
Definition shl (a n : Z) : Z := toInt32 (Z.shiftl (toInt32 a) n).
Definition bor (a b : Z) : Z := Z.lor (toInt32 a) (toInt32 b).

End JSMath.

(** The object literal [{ x, y }] used for force vectors and positions. *)
Module Vec.
Record t : Type := mk { x : R; y : R }.
End Vec.

(** ** class FlowField *)

Module FlowField.

Import JSMath.

Record t : Type := mk {
  width : R;
  height : R;
  mode : string;
  scale : R;
  time : R;
  timeSpeed : R;
  mouseX : R;
  mouseY : R;
  mouseRadius : R;
  mouseForce : R;
  mousePressed : bool;
  perm : list Z;
  gradP : list (Z * Z * Z)
}.

(** The class field [grad3]. *)
Definition grad3 : list (Z * Z * Z) :=
  [ (1, 1, 0); (-1, 1, 0); (1, -1, 0); (-1, -1, 0);
    (1, 0, 1); (-1, 0, 1); (1, 0, -1); (-1, 0, -1);
    (0, 1, 1); (0, -1, 1); (0, 1, -1); (0, -1, -1) ]%Z.

(** [p[i] = Math.floor(Math.random() * 256)] for [i] in [0, 256); [rnd i]
    is the value the [i]-th call of [Math.random()] returned. *)
Definition initP (rnd : nat -> R) : list Z :=
  map (fun i => floor (rnd i * 256)) (seq 0 256).

(** Array read [a[i]].  Every index the program uses on a table built by
    [initPerlin] is in range (see [noise2D_indices_in_range]); outside it
    the model reads 0. *)
Definition at_ (a : list Z) (i : Z) : Z :=
  if (i <? 0)%Z then 0%Z else nth (Z.to_nat i) a 0%Z.

(** [initPerlin]: the two 512-entry tables. *)
Definition initPerlin_perm (rnd : nat -> R) : list Z :=
  let p := initP rnd in
  map (fun i => at_ p (Z.land (Z.of_nat i) 255)) (seq 0 512).

Definition initPerlin_gradP (rnd : nat -> R) : list (Z * Z * Z) :=
  map (fun pi => nth (Z.to_nat (pi mod 12)) grad3 (0, 0, 0)%Z)
      (initPerlin_perm rnd).

(** [constructor(width, height, mode = "flow")]: [None] is an omitted (or
    [undefined]) third argument, which takes the default. *)
Definition new
  (width height : R) (mode : option string) (rnd : nat -> R) : t :=
  {| width := width;
     height := height;
     mode := match mode with Some m => m | None => "flow"%string end;
     scale := 100;
     time := 0;
     timeSpeed := 0.0003;
     mouseX := width / 2;
     mouseY := height / 2;
     mouseRadius := 150;
     mouseForce := 0.5;
     mousePressed := false;
     perm := initPerlin_perm rnd;
     gradP := initPerlin_gradP rnd |}.

Definition fade (t : R) : R := t * t * t * (t * (t * 6 - 15) + 10).

Definition lerp (a b t : R) : R := (1 - t) * a + t * b.

Definition grad (hash : Z) (x y : R) : R :=
  let h := Z.land hash 3 in
  let u := if (h <? 2)%Z then x else y in
  let v := if (h <? 2)%Z then y else x in
  (if (Z.land h 1 =? 0)%Z then u else - u)
  + (if (Z.land h 2 =? 0)%Z then v else - v).

(** [Math.floor(x) & 255] keeps the low eight bits of the floor: the
    conversion to a 32-bit integer that [&] performs first does not change
    them. *)
Definition noise2D (f : t) (x y : R) : R :=
  let X := Z.land (floor x) 255 in
  let Y := Z.land (floor y) 255 in
  let x := x - IZR (floor x) in
  let y := y - IZR (floor y) in
  let u := fade x in
  let v := fade y in
  let A := (at_ (perm f) X + Y)%Z in
  let AA := at_ (perm f) A in
  let AB := at_ (perm f) (A + 1) in
  let B := (at_ (perm f) (X + 1) + Y)%Z in
  let BA := at_ (perm f) B in
  let BB := at_ (perm f) (B + 1) in
  lerp
    (lerp (grad (at_ (perm f) AA) x y)
          (grad (at_ (perm f) BA) (x - 1) y)
          u)
    (lerp (grad (at_ (perm f) AB) x (y - 1))
          (grad (at_ (perm f) BB) (x - 1) (y - 1))
          u)
    v.

(** The [switch (this.mode)] of [getVector]: the raw angle. *)
Definition modeAngle (f : t) (x y : R) : R :=
  if String.eqb (mode f) "flow" then
    noise2D f (x / scale f) (y / scale f + time f) * PI * 2
  else if String.eqb (mode f) "galaxy" then
    let centerX := width f / 2 in
    let centerY := height f / 2 in
    let dx := x - centerX in
    let dy := y - centerY in
    let dist := sqrt (dx * dx + dy * dy) in
    let baseAngle := atan2 dy dx in
    baseAngle + dist * 0.01 + noise2D f (x / scale f) (y / scale f) * 0.5
  else if String.eqb (mode f) "vortex" then
    let vortexX := width f / 2 in
    let vortexY := height f / 2 in
    let vdx := x - vortexX in
    let vdy := y - vortexY in
    let vdist := sqrt (vdx * vdx + vdy * vdy) in
    let angle := atan2 vdy vdx + PI / 2 + vdist * 0.005 in
    angle
    + noise2D f (x / (scale f * 0.5)) (y / (scale f * 0.5) + time f) * 1.5
  else if String.eqb (mode f) "chaos" then
    let angle :=
      noise2D f (x / (scale f * 0.3)) (y / (scale f * 0.3) + time f * 2)
      * PI * 4 in
    angle
    + noise2D f (x / (scale f * 0.5)) (y / (scale f * 0.5) - time f)
      * PI * 2
  else 0.

(** The pointer block of [getVector]: the angle after the mouse blend. *)
Definition mouseBlend (f : t) (x y angle : R) : R :=
  if mousePressed f then
    let dx := x - mouseX f in
    let dy := y - mouseY f in
    let distToMouse := sqrt (dx * dx + dy * dy) in
    if ltb distToMouse (mouseRadius f) then
      let influence := 1 - distToMouse / mouseRadius f in
      let mouseAngle := atan2 dy dx + PI in
      let mixFactor := influence * mouseForce f in
      angle * (1 - mixFactor) + mouseAngle * mixFactor
    else angle
  else angle.

Definition getVector (f : t) (x y : R) : Vec.t :=
  let angle := mouseBlend f x y (modeAngle f x y) in
  {| Vec.x := cos angle; Vec.y := sin angle |}.

Definition set_time (f : t) (v : R) : t :=
  mk (width f) (height f) (mode f) (scale f) v (timeSpeed f) (mouseX f)
     (mouseY f) (mouseRadius f) (mouseForce f) (mousePressed f) (perm f)
     (gradP f).

Definition update (f : t) : t := set_time f (time f + timeSpeed f).

Definition setMousePosition (f : t) (x y : R) : t :=
  mk (width f) (height f) (mode f) (scale f) (time f) (timeSpeed f) x y
     (mouseRadius f) (mouseForce f) (mousePressed f) (perm f) (gradP f).

Definition setMousePressed (f : t) (pressed : bool) : t :=
  mk (width f) (height f) (mode f) (scale f) (time f) (timeSpeed f)
     (mouseX f) (mouseY f) (mouseRadius f) (mouseForce f) pressed (perm f)
     (gradP f).

Definition setMode (f : t) (m : string) : t :=
  let ts :=
    if String.eqb m "galaxy" then 0.0001
    else if String.eqb m "vortex" then 0.0005
    else if String.eqb m "chaos" then 0.001
    else 0.0003 in
  mk (width f) (height f) m (scale f) (time f) ts (mouseX f) (mouseY f)
     (mouseRadius f) (mouseForce f) (mousePressed f) (perm f) (gradP f).

Definition resize (f : t) (w h : R) : t :=
  mk w h (mode f) (scale f) (time f) (timeSpeed f) (w / 2) (h / 2)
     (mouseRadius f) (mouseForce f) (mousePressed f) (perm f) (gradP f).

(** The field objects a program can hold: built by the constructor, then
    changed only through the methods of the class. *)
Inductive Reachable : t -> Prop :=
| R_new w h m rnd : Reachable (new w h m rnd)
| R_update f : Reachable f -> Reachable (update f)
| R_setMousePosition f x y :
    Reachable f -> Reachable (setMousePosition f x y)
| R_setMousePressed f b : Reachable f -> Reachable (setMousePressed f b)
| R_setMode f m : Reachable f -> Reachable (setMode f m)
| R_resize f w h : Reachable f -> Reachable (resize f w h).

End FlowField.

(** ** class Particle *)

Module Particle.

Import JSMath.

Record t : Type := mk {
  x : R;
  y : R;
  width : R;
  height : R;
  vx : R;
  vy : R;
  maxSpeed : R;
  hue : R;
  history : list Vec.t;
  maxHistory : nat
}.

(** [constructor(x, y, width, height)]; [r1], [r2], [r3] are the values of
  the three calls of [Math.random()], in program order.  [None] is an
  omitted (or [undefined]) argument. *)
Definition new (x0 y0 : option R) (width height : R) (r1 r2 r3 : R) : t :=
  let padding := 50 in
  {| x := padding + r1 * (width - padding * 2);
   y := padding + r2 * (height - padding * 2);
   width := width;
   height := height;
   vx := 0;
   vy := 0;
   maxSpeed := 2;
   hue := r3 * 360;
   history := [];
   maxHistory := 20%nat |}.

Definition set_pos (p : t) (x' y' : R) : t :=
  mk x' y' (width p) (height p) (vx p) (vy p) (maxSpeed p) (hue p)
   (history p) (maxHistory p).

Definition set_vel (p : t) (vx' vy' : R) : t :=
  mk (x p) (y p) (width p) (height p) vx' vy' (maxSpeed p) (hue p)
   (history p) (maxHistory p).

Definition set_history (p : t) (h : list Vec.t) : t :=
  mk (x p) (y p) (width p) (height p) (vx p) (vy p) (maxSpeed p) (hue p) h
   (maxHistory p).

Definition set_hue (p : t) (h : R) : t :=
  mk (x p) (y p) (width p) (height p) (vx p) (vy p) (maxSpeed p) h
   (history p) (maxHistory p).

(** The statements of [update(force, speed)], block by block. *)

(** [this.vx += force.x * 0.3; this.vy += force.y * 0.3]. *)
Definition applyForce (p : t) (force : Vec.t) : t :=
  set_vel p (vx p + Vec.x force * 0.3) (vy p + Vec.y force * 0.3).

(** [Math.sqrt(this.vx * this.vx + this.vy * this.vy)]. *)
Definition speedOf (p : t) : R := sqrt (vx p * vx p + vy p * vy p).

(** [if (currentSpeed > this.maxSpeed) { ... }]. *)
Definition capSpeed (p : t) (currentSpeed : R) : t :=
  if gtb currentSpeed (maxSpeed p) then
    set_vel p (vx p / currentSpeed * maxSpeed p)
          (vy p / currentSpeed * maxSpeed p)
  else p.

(** [this.history.push({x, y})], then [this.history.shift()] when the
    length exceeds [maxHistory]. *)
Definition pushHistory (p : t) : t :=
  let h := history p ++ [ {| Vec.x := x p; Vec.y := y p |} ] in
  set_history p (if (maxHistory p <? List.length h)%nat then tl h else h).

(** [this.x += this.vx * speed; this.y += this.vy * speed]. *)
Definition integrate (p : t) (speed : R) : t :=
  set_pos p (x p + vx p * speed) (y p + vy p * speed).

Definition damping : R := 0.7.
Definition margin : R := 2.

(** The X check: the new state and whether this check set [bounced]. *)
Definition bounceX (p : t) : t * bool :=
  if ltb (x p) margin then
    (set_vel (set_pos p margin (y p)) (abs (vx p) * damping) (vy p), true)
  else if gtb (x p) (width p - margin) then
    (set_vel (set_pos p (width p - margin) (y p))
         (- abs (vx p) * damping) (vy p), true)
  else (p, false).

(** The Y check. *)
Definition bounceY (p : t) : t * bool :=
  if ltb (y p) margin then
    (set_vel (set_pos p (x p) margin) (vx p) (abs (vy p) * damping), true)
  else if gtb (y p) (height p - margin) then
    (set_vel (set_pos p (x p) (height p - margin))
         (vx p) (- abs (vy p) * damping), true)
  else (p, false).

(** What one call of [update] leaves: the object, and the values of the
  locals [currentSpeed] and [bounced] at the end of the call. *)
Record Step : Type := mkStep {
  after : t;
  currentSpeed : R;
  bounced : bool
}.

Definition update_step (p : t) (force : Vec.t) (speed : R) : Step :=
  let p1 := applyForce p force in
  let currentSpeed := speedOf p1 in
  let p2 := capSpeed p1 currentSpeed in
  let p3 := pushHistory p2 in
  let p4 := integrate p3 speed in
  let (p5, bx) := bounceX p4 in
  let (p6, by_) := bounceY p5 in
  let bounced := bx || by_ in
  let p7 := if bounced then set_history p6 [] else p6 in
  let speedRatio := currentSpeed / maxSpeed p7 in
  {| after := set_hue p7 (speedRatio * 120);
     currentSpeed := currentSpeed;
     bounced := bounced |}.

Definition update (p : t) (force : Vec.t) (speed : R) : t :=
  after (update_step p force speed).

(** [reset(width, height)]; [r1], [r2] are the two random draws. *)
Definition reset (p : t) (width' height' : R) (r1 r2 : R) : t :=
  let padding := 50 in
  mk (padding + r1 * (width' - padding * 2))
   (padding + r2 * (height' - padding * 2))
   width' height' 0 0 (maxSpeed p) (hue p) [] (maxHistory p).

(** A run of [update] calls, one [(force, speed)] pair per call. *)
Definition updates (p : t) (calls : list (Vec.t * R)) : t :=
  fold_left (fun q c => update q (fst c) (snd c)) calls p.

(** The velocity after the speed cap of one call, before the position moves. *)
Definition capped (p : t) (force : Vec.t) : t :=
  let p1 := applyForce p force in capSpeed p1 (speedOf p1).

(** The position after the integration of one call, before the boundary
    checks. *)
Definition moved (p : t) (force : Vec.t) (speed : R) : t :=
  integrate (pushHistory (capped p force)) speed.

End Particle.

(** ** [Math.random()] as a stream

    A computation that may call [Math.random()] reads the stream of the
    values the calls return, from the number of calls made so far, and
    yields its result with the new number of calls. *)

Module Random.

Definition M (A : Type) : Type := (nat -> R) -> nat -> A * nat.

Definition ret {A : Type} (a : A) : M A := fun _ k => (a, k).

Definition bind {A B : Type} (m : M A) (f : A -> M B) : M B :=
  fun rnd k => let (a, k') := m rnd k in f a rnd k'.

Definition random : M R := fun rnd k => (rnd k, S k).

(** A loop that runs its body [n] times on an accumulator. *)
Fixpoint loop {A : Type} (n : nat) (body : A -> M A) (a : A) : M A :=
  match n with
  | O => ret a
  | S n' => bind (body a) (loop n' body)
  end.

(** [forEach] with a body that draws random numbers. *)
Fixpoint mapM {A B : Type} (f : A -> M B) (l : list A) : M (list B) :=
  match l with
  | [] => ret []
  | a :: l' => bind (f a) (fun b => bind (mapM f l') (fun bs => ret (b :: bs)))
  end.

End Random.

Declare Scope random_scope.
Delimit Scope random_scope with random.
Notation "x <- m ;; k" := (Random.bind m (fun x => k))
  (at level 61, m at next level, right associativity) : random_scope.

(** ** class ParticleSystem

    The rendering objects (textures, sprites, graphics contexts) are left
    out; the drawing calls of [update] are kept as the list of primitives
    they issue. *)

Module ParticleSystem.

Import JSMath Random.

Record t : Type := mk {
  width : R;
  height : R;
  particleCount : Z;
  speed : R;
  trailAlpha : R;
  flowField : FlowField.t;
  particles : list Particle.t
}.

(** [new FlowField(width, height, mode)] inside a computation: [initPerlin]
    makes 256 calls of [Math.random()]. *)
Definition newFlowField (w h : R) (mode : option string) : M FlowField.t :=
  fun rnd k => (FlowField.new w h mode (fun i => rnd (k + i)%nat),
                (k + 256)%nat).

(** The body of the two particle-creating loops:
    [x = Math.random() * width; y = Math.random() * height;
     particles.push(new Particle(x, y, width, height))]. *)
Definition pushParticle (w h : R) (ps : list Particle.t)
  : M (list Particle.t) :=
  (rx <- random ;; ry <- random ;;
   r1 <- random ;; r2 <- random ;; r3 <- random ;;
   ret (ps ++ [ Particle.new (Some (rx * w)) (Some (ry * h)) w h r1 r2 r3 ])
  )%random.

(** [for (let i = 0; i < n; i++)] runs [Z.to_nat n] times for an integer
    [n]. *)
Definition initParticles (s : t) : M t :=
  (ps <- loop (Z.to_nat (particleCount s))
              (pushParticle (width s) (height s)) [] ;;
   ret (mk (width s) (height s) (particleCount s) (speed s) (trailAlpha s)
           (flowField s) ps))%random.

(** [constructor(app, particleCount)]; [w] and [h] are [app.screen.width]
    and [app.screen.height]. *)
Definition new (w h : R) (count : Z) : M t :=
  (ff <- newFlowField w h (Some "flow"%string) ;;
   initParticles (mk w h count 1.0 0.95 ff []))%random.

(** [Array.prototype.slice(0, end)] for an integer [end]. *)
Definition slice0 {A : Type} (l : list A) (end_ : Z) : list A :=
  if (end_ <? 0)%Z
  then firstn (Z.to_nat (Z.max (Z.of_nat (List.length l) + end_) 0)) l
  else firstn (Z.to_nat end_) l.

Definition setParticleCount (s : t) (count : Z) : M t :=
  (ps <- (if (count >? particleCount s)%Z then
            let toAdd := (count - particleCount s)%Z in
            loop (Z.to_nat toAdd) (pushParticle (width s) (height s))
                 (particles s)
          else if (count <? particleCount s)%Z then
            ret (slice0 (particles s) count)
          else ret (particles s)) ;;
   ret (mk (width s) (height s) count (speed s) (trailAlpha s)
           (flowField s) ps))%random.

(** [hslToHex(h, s, l)]: the three channels after [Math.round], then the
    packed colour. *)
Definition hslChannels (h s l : R) : Z * Z * Z :=
  let s := s / 100 in
  let l := l / 100 in
  let c := (1 - abs (2 * l - 1)) * s in
  let x := c * (1 - abs (rem (h / 60) 2 - 1)) in
  let m := l - c / 2 in
  let '(r, g, b) :=
    if leb 0 h && ltb h 60 then (c, x, 0)
    else if leb 60 h && ltb h 120 then (x, c, 0)
    else if leb 120 h && ltb h 180 then (0, c, x)
    else if leb 180 h && ltb h 240 then (0, x, c)
    else if leb 240 h && ltb h 300 then (x, 0, c)
    else if leb 300 h && ltb h 360 then (c, 0, x)
    else (0, 0, 0) in
  (round ((r + m) * 255), round ((g + m) * 255), round ((b + m) * 255)).

Definition hslToHex (h s l : R) : Z :=
  let '(r, g, b) := hslChannels h s l in
  bor (bor (shl r 16) (shl g 8)) b.

(** The drawing primitives [update] issues on [this.graphics]. *)
Inductive Draw : Type :=
| Circle (x y radius : R) (color : Z) (alpha : R)
| Line (x0 y0 x1 y1 : R) (width : R) (color : Z) (alpha : R).

(** The drawing block of the loop of [update], for a particle that has
    just been updated. *)
Definition drawParticle (particle : Particle.t) : list Draw :=
  let speed :=
    sqrt (Particle.vx particle * Particle.vx particle
          + Particle.vy particle * Particle.vy particle) in
  let speedRatio := speed / Particle.maxSpeed particle in
  let hue := speedRatio * 180 in
  let color := hslToHex hue 100 50 in
  Circle (Particle.x particle) (Particle.y particle) 1.5 color 0.8
  :: match rev (Particle.history particle) with
     | [] => []
     | prev :: _ =>
         let dx := Particle.x particle - Vec.x prev in
         let dy := Particle.y particle - Vec.y prev in
         let dist := sqrt (dx * dx + dy * dy) in
         if ltb dist 50 then
           [ Line (Vec.x prev) (Vec.y prev)
                  (Particle.x particle) (Particle.y particle) 1 color 0.3 ]
         else []
     end.

(** The body of the loop of [update]: the particle after its step. *)
Definition stepParticle (ff : FlowField.t) (speed : R) (p : Particle.t)
  : Particle.t :=
  let force := FlowField.getVector ff (Particle.x p) (Particle.y p) in
  Particle.update p force speed.

(** [update()]: the system after the frame and what the frame draws. *)
Definition update (s : t) : t * list Draw :=
  let ff := FlowField.update (flowField s) in
  let ps := map (stepParticle ff (speed s)) (particles s) in
  (mk (width s) (height s) (particleCount s) (speed s) (trailAlpha s) ff ps,
   List.concat (map drawParticle ps)).

(** [reset()]: every particle is reset, in order. *)
Definition reset (s : t) : M t :=
  (ps <- mapM (fun p => r1 <- random ;; r2 <- random ;;
                        ret (Particle.reset p (width s) (height s) r1 r2))
              (particles s) ;;
   ret (mk (width s) (height s) (particleCount s) (speed s) (trailAlpha s)
           (flowField s) ps))%random.

Definition setMode (s : t) (mode : string) : t :=
  mk (width s) (height s) (particleCount s) (speed s) (trailAlpha s)
     (FlowField.setMode (flowField s) mode) (particles s).

Definition setMousePosition (s : t) (x y : R) : t :=
  mk (width s) (height s) (particleCount s) (speed s) (trailAlpha s)
     (FlowField.setMousePosition (flowField s) x y) (particles s).

Definition setMousePressed (s : t) (pressed : bool) : t :=
  mk (width s) (height s) (particleCount s) (speed s) (trailAlpha s)
     (FlowField.setMousePressed (flowField s) pressed) (particles s).

(** The assignments [p.width = width; p.height = height] of [resize]. *)
Definition setDims (w h : R) (p : Particle.t) : Particle.t :=
  Particle.mk (Particle.x p) (Particle.y p) w h (Particle.vx p)
              (Particle.vy p) (Particle.maxSpeed p) (Particle.hue p)
              (Particle.history p) (Particle.maxHistory p).

Definition resize (s : t) (w h : R) : t :=
  mk w h (particleCount s) (speed s) (trailAlpha s)
     (FlowField.resize (flowField s) w h) (map (setDims w h) (particles s)).

End ParticleSystem.

(** ** Objects for the examples *)

(** A field as the driver builds it: an 800 x 600 canvas. *)
Definition demo_field (m : option string) : FlowField.t :=
  FlowField.new 800 600 m (fun _ => 0).

(** The unit force pointing along +x, [getVector]'s result for angle 0. *)
Definition unit_x : Vec.t := {| Vec.x := 1; Vec.y := 0 |}.

(** A particle as the driver builds it on that canvas; the random draws
    put it at the centre (400, 300). *)
Definition demo_particle : Particle.t :=
  Particle.new (Some 10) (Some 20) 800 600 0.5 0.5 0.5.

(** A particle of the 800 x 600 canvas at [(xv, 300)] moving along +x at
    velocity [vv]. *)
Definition cruising (p : Particle.t) (xv vv : R) : Prop :=
  Particle.x p = xv /\ Particle.y p = 300 /\ Particle.vx p = vv
  /\ Particle.vy p = 0 /\ Particle.width p = 800 /\ Particle.height p = 600
  /\ Particle.maxSpeed p = 2.

(** A stream of [Math.random()] values, all one half. *)
Definition demo_draws : nat -> R := fun _ => 0.5.

(** The particle the creating loops push when [k] calls of [Math.random()]
    have been made before it. *)
Definition pushed (rnd : nat -> R) (w h : R) (k : nat) : Particle.t :=
  Particle.new (Some (rnd k * w)) (Some (rnd (k + 1)%nat * h)) w h
    (rnd (k + 2)%nat) (rnd (k + 3)%nat) (rnd (k + 4)%nat).

(** A particle as the constructor or [reset] leaves it on a [w] x [h]
    canvas: at rest, without history, with the constants of the class. *)
Definition at_rest (w h : R) (p : Particle.t) : Prop :=
  Particle.vx p = 0 /\ Particle.vy p = 0 /\ Particle.history p = []
  /\ Particle.maxSpeed p = 2 /\ Particle.maxHistory p = 20%nat
  /\ Particle.width p = w /\ Particle.height p = h.

(** A position within the 50-unit inset of a [w] x [h] canvas. *)
Definition in_inset (w h : R) (p : Particle.t) : Prop :=
  50 <= Particle.x p <= w - 50 /\ 50 <= Particle.y p <= h - 50.

(** A particle of the class (its [maxSpeed] is 2) on a canvas of at least
    4 x 4 whose velocity is within the cap. *)
Definition within_cap (p : Particle.t) : Prop :=
  Particle.maxSpeed p = 2 /\ 4 <= Particle.width p /\ 4 <= Particle.height p
  /\ Particle.vx p * Particle.vx p + Particle.vy p * Particle.vy p <= 4.

(** The same particle after a frame: within the 2-unit margins of its
    canvas, with a hue between 0 and 138. *)
Definition framed (p : Particle.t) : Prop :=
  within_cap p
  /\ 2 <= Particle.x p <= Particle.width p - 2
  /\ 2 <= Particle.y p <= Particle.height p - 2
  /\ 0 <= Particle.hue p <= 138.

(** One frame of the system, without what it draws. *)
Definition frame (s : ParticleSystem.t) : ParticleSystem.t :=
  fst (ParticleSystem.update s).

(** ** Facts about the [Math] built-ins *)

Section MathFacts.

Import JSMath.

Lemma ltb_true r1 r2 : ltb r1 r2 = true <-> r1 < r2.
Proof.
  unfold ltb; destruct (Rlt_dec r1 r2); split; intros; auto; discriminate.
Qed.

Lemma ltb_false r1 r2 : ltb r1 r2 = false <-> r2 <= r1.
Proof.
  unfold ltb; destruct (Rlt_dec r1 r2); split; intros; auto;
    try discriminate; lra.
Qed.

Lemma gtb_true r1 r2 : gtb r1 r2 = true <-> r1 > r2.
Proof.
  unfold gtb; destruct (Rgt_dec r1 r2); split; intros; auto; discriminate.
Qed.

Lemma gtb_false r1 r2 : gtb r1 r2 = false <-> r1 <= r2.
Proof.
  unfold gtb; destruct (Rgt_dec r1 r2); split; intros; auto;
    try discriminate; lra.
Qed.

Lemma floor_IZR (z : Z) : floor (IZR z) = z.
Proof. unfold floor; symmetry; apply Int_part_spec; lra. Qed.

Lemma floor_frac (r : R) : 0 <= r - IZR (floor r) < 1.
Proof. unfold floor; destruct (base_Int_part r); lra. Qed.

End MathFacts.

(** ** Facts about the flow field *)

Section Noise.

Import FlowField.

Lemma fade_0 : fade 0 = 0.
Proof. unfold fade; ring. Qed.

Lemma fade_sym (t : R) : fade t + fade (1 - t) = 1.
Proof. unfold fade; ring. Qed.

Lemma fade_nonneg (t : R) : 0 <= t -> 0 <= fade t.
Proof.
  intros Ht. unfold fade.
  assert (Hq : 0 < t * (t * 6 - 15) + 10).
  { replace (t * (t * 6 - 15) + 10)
      with (6 * ((t - 5 / 4) * (t - 5 / 4)) + 5 / 8) by field.
    pose proof (Rle_0_sqr (t - 5 / 4)) as Hs. unfold Rsqr in Hs. lra. }
  apply Rmult_le_pos; [ | lra ].
  repeat apply Rmult_le_pos; assumption.
Qed.

Lemma fade_unit (t : R) : 0 <= t <= 1 -> 0 <= fade t <= 1.
Proof.
  intros [H0 H1]. split; [ now apply fade_nonneg | ].
  pose proof (fade_sym t) as Hs.
  assert (0 <= fade (1 - t)) by (apply fade_nonneg; lra). lra.
Qed.

(** The weight a corner at distance [t] gets against the far corner never
    lets the blended distance pass one half. *)
Lemma fade_blend_half (t : R) :
  0 <= t <= 1 -> lerp t (1 - t) (fade t) <= 1 / 2.
Proof.
  intros [H0 H1]. unfold lerp, fade.
  set (s := t - 1 / 2).
  assert (Hid : 1 / 2 - ((1 - t * t * t * (t * (t * 6 - 15) + 10)) * t
                + t * t * t * (t * (t * 6 - 15) + 10) * (1 - t))
          = 2 * (s * s) * (15 / 8 - 5 * (s * s) + 6 * ((s * s) * (s * s)))).
  { unfold s. field. }
  assert (Hs2 : 0 <= s * s <= 1 / 4).
  { split; [ apply Rle_0_sqr | ]. unfold s. nra. }
  assert (Hpos : 0 <= 2 * (s * s)
                 * (15 / 8 - 5 * (s * s) + 6 * ((s * s) * (s * s)))).
  { apply Rmult_le_pos; [ lra | ]. nra. }
  lra.
Qed.

Lemma grad_abs (h : Z) (a b : R) : Rabs (grad h a b) <= Rabs a + Rabs b.
Proof.
  unfold grad.
  destruct (Z.land h 3 <? 2)%Z;
    destruct (Z.land (Z.land h 3) 1 =? 0)%Z;
    destruct (Z.land (Z.land h 3) 2 =? 0)%Z;
    unfold Rabs; repeat destruct Rcase_abs; lra.
Qed.

Lemma grad_0 (h : Z) : grad h 0 0 = 0.
Proof.
  unfold grad.
  destruct (Z.land h 3 <? 2)%Z;
    destruct (Z.land (Z.land h 3) 1 =? 0)%Z;
    destruct (Z.land (Z.land h 3) 2 =? 0)%Z; lra.
Qed.

Lemma lerp_abs (a b t A B : R) :
  0 <= t <= 1 -> Rabs a <= A -> Rabs b <= B ->
  Rabs (lerp a b t) <= lerp A B t.
Proof.
  intros [H0 H1] Ha Hb. unfold lerp.
  eapply Rle_trans; [ apply Rabs_triang | ].
  rewrite !Rabs_mult.
  rewrite (Rabs_pos_eq (1 - t)) by lra.
  rewrite (Rabs_pos_eq t) by lra.
  apply Rplus_le_compat; apply Rmult_le_compat_l; lra.
Qed.

Lemma noise2D_abs (f : t) (x y : R) : Rabs (noise2D f x y) <= 1.
Proof.
  unfold noise2D.
  pose proof (floor_frac x) as Hx.
  pose proof (floor_frac y) as Hy.
  set (xf := x - IZR (JSMath.floor x)) in *.
  set (yf := y - IZR (JSMath.floor y)) in *.
  assert (Hu : 0 <= fade xf <= 1) by (apply fade_unit; lra).
  assert (Hv : 0 <= fade yf <= 1) by (apply fade_unit; lra).
  eapply Rle_trans.
  - apply lerp_abs with
      (A := lerp (xf + yf) ((1 - xf) + yf) (fade xf))
      (B := lerp (xf + (1 - yf)) ((1 - xf) + (1 - yf)) (fade xf));
      try assumption.
    + apply lerp_abs; try assumption.
      * eapply Rle_trans; [ apply grad_abs | ].
        rewrite !Rabs_pos_eq by lra. lra.
      * eapply Rle_trans; [ apply grad_abs | ].
        rewrite (Rabs_left1 (xf - 1)) by lra.
        rewrite Rabs_pos_eq by lra. lra.
    + apply lerp_abs; try assumption.
      * eapply Rle_trans; [ apply grad_abs | ].
        rewrite (Rabs_left1 (yf - 1)) by lra.
        rewrite Rabs_pos_eq by lra. lra.
      * eapply Rle_trans; [ apply grad_abs | ].
        rewrite (Rabs_left1 (xf - 1)) by lra.
        rewrite (Rabs_left1 (yf - 1)) by lra. lra.
  - pose proof (fade_blend_half xf ltac:(lra)) as Bx.
    pose proof (fade_blend_half yf ltac:(lra)) as By.
    unfold lerp in *. nra.
Qed.

(** The tables [initPerlin] builds. *)

Lemma floor_random_256 (r : R) :
  0 <= r < 1 -> (0 <= JSMath.floor (r * 256) < 256)%Z.
Proof.
  intros [H0 H1]. unfold JSMath.floor.
  destruct (base_Int_part (r * 256)) as [Hlo Hhi].
  split.
  - assert (-1 < IZR (Int_part (r * 256))) by lra.
    apply lt_IZR in H. lia.
  - apply lt_IZR. lra.
Qed.

Lemma initP_at (rnd : nat -> R) (i : Z) :
  (0 <= i < 256)%Z ->
  at_ (initP rnd) i = JSMath.floor (rnd (Z.to_nat i) * 256).
Proof.
  intros Hi. unfold at_, initP.
  destruct (Z.ltb_spec i 0); [ lia | ].
  set (g := fun k : nat => JSMath.floor (rnd k * 256)).
  rewrite (nth_indep _ 0%Z (g 0%nat)) by (rewrite length_map, length_seq; lia).
  rewrite map_nth, seq_nth by lia. reflexivity.
Qed.

Lemma initPerlin_perm_length (rnd : nat -> R) :
  List.length (initPerlin_perm rnd) = 512%nat.
Proof. unfold initPerlin_perm. now rewrite length_map, length_seq. Qed.

Lemma initPerlin_perm_at (rnd : nat -> R) (i : Z) :
  (0 <= i < 512)%Z ->
  at_ (initPerlin_perm rnd) i = at_ (initP rnd) (Z.land i 255).
Proof.
  intros Hi. unfold initPerlin_perm. unfold at_ at 1.
  destruct (Z.ltb_spec i 0); [ lia | ].
  set (g := fun k : nat => at_ (initP rnd) (Z.land (Z.of_nat k) 255)).
  rewrite (nth_indep _ 0%Z (g 0%nat)) by (rewrite length_map, length_seq; lia).
  rewrite map_nth, seq_nth by lia. unfold g.
  rewrite Nat.add_0_l, Z2Nat.id by lia. reflexivity.
Qed.

Lemma land_255_range (z : Z) : (0 <= Z.land z 255 < 256)%Z.
Proof.
  change 255%Z with (Z.ones 8). rewrite Z.land_ones by lia.
  apply Z.mod_pos_bound. lia.
Qed.

(** Entries of the permutation table are in [0, 256). *)
Lemma initPerlin_perm_range (rnd : nat -> R) (i : Z) :
  (forall k, 0 <= rnd k < 1) -> (0 <= i < 512)%Z ->
  (0 <= at_ (initPerlin_perm rnd) i < 256)%Z.
Proof.
  intros Hr Hi. rewrite initPerlin_perm_at by assumption.
  rewrite initP_at by apply land_255_range.
  apply floor_random_256, Hr.
Qed.

(** Every table read of [noise2D] falls inside the 512 entries, so no read
    of the program yields [undefined]. *)
Lemma noise2D_indices_in_range (rnd : nat -> R) (x y : R) :
  (forall k, 0 <= rnd k < 1) ->
  let pm := initPerlin_perm rnd in
  let X := Z.land (JSMath.floor x) 255 in
  let Y := Z.land (JSMath.floor y) 255 in
  let A := (at_ pm X + Y)%Z in
  let B := (at_ pm (X + 1) + Y)%Z in
  Forall (fun i => (0 <= i < 512)%Z)
    [ X; (X + 1)%Z; A; (A + 1)%Z; B; (B + 1)%Z;
      at_ pm A; at_ pm (A + 1); at_ pm B; at_ pm (B + 1) ].
Proof.
  intros Hr pm X Y A B.
  pose proof (land_255_range (JSMath.floor x)) as HX. fold X in HX.
  pose proof (land_255_range (JSMath.floor y)) as HY. fold Y in HY.
  assert (HpX : (0 <= at_ pm X < 256)%Z)
    by (apply initPerlin_perm_range; [ assumption | lia ]).
  assert (HpX1 : (0 <= at_ pm (X + 1) < 256)%Z)
    by (apply initPerlin_perm_range; [ assumption | lia ]).
  assert (HA : (0 <= A < 511)%Z) by (unfold A; lia).
  assert (HB : (0 <= B < 511)%Z) by (unfold B; lia).
  assert (Hin : forall i, (0 <= i < 512)%Z -> (0 <= at_ pm i < 512)%Z).
  { intros i Hi. pose proof (initPerlin_perm_range rnd i Hr Hi) as H.
    fold pm in H. lia. }
  repeat constructor; try lia; apply Hin; lia.
Qed.

(** No method of the class changes the noise scale. *)
Lemma reachable_scale (f : t) : Reachable f -> scale f = 100.
Proof. induction 1; simpl; auto. Qed.

Lemma noise2D_integer (f : t) (i j : Z) : noise2D f (IZR i) (IZR j) = 0.
Proof.
  unfold noise2D. rewrite !floor_IZR.
  replace (IZR i - IZR i) with 0 by ring.
  replace (IZR j - IZR j) with 0 by ring.
  rewrite fade_0. unfold lerp. rewrite grad_0. ring.
Qed.

Lemma mouseBlend_inactive (f : t) (x y a : R) :
  mousePressed f = false -> mouseBlend f x y a = a.
Proof. intros H. unfold mouseBlend. now rewrite H. Qed.

Lemma modeAngle_flow (f : t) (x y : R) :
  mode f = "flow"%string ->
  modeAngle f x y = noise2D f (x / scale f) (y / scale f + time f) * PI * 2.
Proof. intros H. unfold modeAngle. now rewrite H. Qed.

(** C1.  In mode "flow" with the pointer interaction inactive, [getVector]
    returns exactly [(cos a, sin a)] for
    [a = noise2D (x / 100) (y / 100 + time) * 2 PI]; 100 is the noise scale
    of every field the class can produce. *)
Theorem getVector_flow (f : t) (x y : R) :
  Reachable f -> mode f = "flow"%string -> mousePressed f = false ->
  let a := noise2D f (x / 100) (y / 100 + time f) * (2 * PI) in
  getVector f x y = {| Vec.x := cos a; Vec.y := sin a |}.
Proof.
  intros Hr Hm Hp a. unfold getVector.
  rewrite mouseBlend_inactive by assumption.
  rewrite modeAngle_flow by assumption.
  rewrite (reachable_scale f Hr).
  replace (noise2D f (x / 100) (y / 100 + time f) * PI * 2) with a
    by (unfold a; ring).
  reflexivity.
Qed.

Lemma getVector_flow_witness :
  let f := update (demo_field None) in
  let a := noise2D f (250 / 100) (40 / 100 + time f) * (2 * PI) in
  getVector f 250 40 = {| Vec.x := cos a; Vec.y := sin a |}.
Proof.
  apply (getVector_flow (update (demo_field None)) 250 40).
  - apply R_update, R_new.
  - reflexivity.
  - reflexivity.
Defined.

(** C2.  [noise2D] returns a value in [-1, 1], whatever the table holds. *)
Theorem noise2D_range (f : t) (x y : R) : -1 <= noise2D f x y <= 1.
Proof.
  pose proof (noise2D_abs f x y) as H.
  unfold Rabs in H. destruct (Rcase_abs (noise2D f x y)); lra.
Qed.

Lemma atan2_pos_axis (d : R) : 0 < d -> JSMath.atan2 0 d = 0.
Proof.
  intros Hd. unfold JSMath.atan2.
  destruct (Rlt_dec 0 d); [ | contradiction ].
  replace (0 / d) with 0 by (field; lra). apply atan_0.
Qed.

Lemma sqrt_axis (d : R) : 0 <= d -> sqrt (d * d + 0 * 0) = d.
Proof.
  intros Hd. replace (d * d + 0 * 0) with (d * d) by ring.
  now apply sqrt_square.
Qed.

(** The angle at a grid point 100 units right of an active pointer. *)
Lemma pressed_grid_angle :
  let f := setMousePressed (demo_field (Some "flow"%string)) true in
  mouseBlend f (100 * 5) (100 * 3) (modeAngle f (100 * 5) (100 * 3)) = PI / 6.
Proof.
  intros f.
  rewrite modeAngle_flow by reflexivity.
  change (scale f) with 100. change (time f) with 0.
  replace (100 * 5 / 100) with (IZR 5) by field.
  replace (100 * 3 / 100 + 0) with (IZR 3) by field.
  rewrite noise2D_integer.
  unfold mouseBlend.
  change (mousePressed f) with true. cbv iota.
  change (mouseX f) with (800 / 2). change (mouseY f) with (600 / 2).
  change (mouseRadius f) with 150. change (mouseForce f) with 0.5.
  replace (100 * 5 - 800 / 2) with 100 by field.
  replace (100 * 3 - 600 / 2) with 0 by field.
  rewrite sqrt_axis by lra.
  rewrite atan2_pos_axis by lra.
  assert (Hlt : JSMath.ltb 100 150 = true) by (apply ltb_true; lra).
  rewrite Hlt. cbv zeta iota. lra.
Qed.

(** C10, as stated, fails with the pointer pressed: at the grid point
    (500, 300) of a flow-mode field at time 0 whose pointer sits at the
    canvas centre, [getVector] returns the direction of angle PI / 6. *)
Lemma getVector_grid_pressed_cex :
  let f := setMousePressed (demo_field (Some "flow"%string)) true in
  Reachable f /\ mode f = "flow"%string /\ time f = 0 /\
  (getVector f (100 * 5) (100 * 3) <> {| Vec.x := 1; Vec.y := 0 |}).
Proof.
  intros f. repeat split.
  - apply R_setMousePressed, R_new.
  - unfold getVector, f. rewrite pressed_grid_angle. intros Heq.
    apply (f_equal Vec.y) in Heq. simpl in Heq.
    rewrite sin_PI6 in Heq. lra.
Qed.

(** C10, amended.  At integer inputs [noise2D] is exactly 0, whatever the
    table holds; hence in flow mode at time 0, with the pointer interaction
    inactive, [getVector] at integer multiples of the 100-unit scale
    returns (1, 0). *)
Theorem noise2D_integer_zero (f : t) (i j : Z) :
  noise2D f (IZR i) (IZR j) = 0 /\
  (Reachable f -> mode f = "flow"%string -> time f = 0 ->
   mousePressed f = false ->
   getVector f (100 * IZR i) (100 * IZR j) = {| Vec.x := 1; Vec.y := 0 |}).
Proof.
  split; [ apply noise2D_integer | ].
  intros Hr Hm Ht Hp. unfold getVector.
  rewrite mouseBlend_inactive by assumption.
  rewrite modeAngle_flow by assumption.
  rewrite (reachable_scale f Hr), Ht.
  replace (100 * IZR i / 100) with (IZR i) by field.
  replace (100 * IZR j / 100 + 0) with (IZR j) by field.
  rewrite noise2D_integer.
  replace (0 * PI * 2) with 0 by ring.
  now rewrite cos_0, sin_0.
Qed.

Lemma noise2D_integer_zero_witness :
  let f := demo_field (Some "flow"%string) in
  noise2D f (IZR 5) (IZR 3) = 0 /\
  getVector f (100 * IZR 5) (100 * IZR 3) = {| Vec.x := 1; Vec.y := 0 |}.
Proof.
  destruct (noise2D_integer_zero (demo_field (Some "flow"%string)) 5 3)
    as [Hn Hv].
  split; [ exact Hn | ].
  apply Hv; [ apply R_new | reflexivity | reflexivity | reflexivity ].
Defined.

(** C6.  The constructor installs the pointer defaults (inactive, radius
    150, strength 0.5), but its time-advance rate is 0.0003 for every mode:
    a field constructed in mode "galaxy" does not get the 0.0001 that
    [setMode] gives the same mode. *)
Theorem new_timeSpeed_galaxy :
  let f := new 800 600 (Some "galaxy"%string) (fun _ => 0) in
  mode f = "galaxy"%string /\
  timeSpeed f = 0.0003 /\ timeSpeed f <> 0.0001 /\
  timeSpeed (setMode f "galaxy") = 0.0001 /\
  mousePressed f = false /\ mouseRadius f = 150 /\ mouseForce f = 0.5.
Proof.
  intros f. repeat split; try reflexivity.
  change (timeSpeed f) with 0.0003. lra.
Qed.

(** What the constructor sets, for every mode and canvas. *)
Lemma new_defaults (w h : R) (m : option string) (rnd : nat -> R) :
  let f := new w h m rnd in
  timeSpeed f = 0.0003 /\ time f = 0 /\ scale f = 100 /\
  mousePressed f = false /\ mouseRadius f = 150 /\ mouseForce f = 0.5 /\
  mouseX f = w / 2 /\ mouseY f = h / 2.
Proof. intros f. repeat split; reflexivity. Qed.

(** [setMode] installs the rate of the mode it is given. *)
Lemma setMode_timeSpeed (f : t) :
  timeSpeed (setMode f "flow") = 0.0003 /\
  timeSpeed (setMode f "galaxy") = 0.0001 /\
  timeSpeed (setMode f "vortex") = 0.0005 /\
  timeSpeed (setMode f "chaos") = 0.001.
Proof. repeat split; reflexivity. Qed.

(** A sample value: on the table of all-zero draws every corner takes the
    gradient (1, 1), and a quarter of the way into the cell the noise is
    0.5 - 2 fade(0.25). *)
Lemma zero_table_at (i : Z) : at_ (initPerlin_perm (fun _ => 0)) i = 0%Z.
Proof.
  destruct (Z_lt_ge_dec i 0) as [Hn | Hn].
  - unfold at_. destruct (Z.ltb_spec i 0); [ reflexivity | lia ].
  - destruct (Z_lt_ge_dec i 512) as [Hi | Hi].
    + rewrite initPerlin_perm_at by lia.
      rewrite initP_at by apply land_255_range.
      replace (0 * 256) with (IZR 0) by ring. apply floor_IZR.
    + unfold at_. destruct (Z.ltb_spec i 0); [ reflexivity | ].
      apply nth_overflow. rewrite initPerlin_perm_length. lia.
Qed.

Lemma noise2D_sample : noise2D (demo_field None) 0.25 0.25 = 0.29296875.
Proof.
  unfold noise2D.
  change (perm (demo_field None)) with (initPerlin_perm (fun _ => 0)).
  assert (Hf : JSMath.floor 0.25 = 0%Z).
  { unfold JSMath.floor. symmetry. apply Int_part_spec. lra. }
  rewrite Hf, !zero_table_at.
  unfold lerp, fade, grad. simpl. lra.
Qed.

End Noise.

(** ** Facts about the particle *)

Section Kinematics.

Import JSMath Particle.

Lemma sqr_abs_damped (v : R) :
  (Rabs v * damping) * (Rabs v * damping) <= v * v.
Proof.
  unfold damping.
  replace (Rabs v * 0.7 * (Rabs v * 0.7))
    with (0.49 * (Rabs v * Rabs v)) by lra.
  assert (Rabs v * Rabs v = v * v).
  { unfold Rabs; destruct (Rcase_abs v); ring. }
  pose proof (Rle_0_sqr v) as Hs. unfold Rsqr in Hs. lra.
Qed.

(** What the X check does, and what it leaves alone. *)
Lemma bounceX_cases (p : t) :
  let q := fst (bounceX p) in
  (x p < margin /\ x q = margin /\ vx q = abs (vx p) * damping
   /\ snd (bounceX p) = true)
  \/ (margin <= x p /\ x p > width p - margin /\ x q = width p - margin
      /\ vx q = - abs (vx p) * damping /\ snd (bounceX p) = true)
  \/ (margin <= x p <= width p - margin /\ q = p /\ snd (bounceX p) = false).
Proof.
  unfold bounceX.
  destruct (ltb (x p) margin) eqn:E1.
  - apply ltb_true in E1. left. simpl. auto.
  - apply ltb_false in E1.
    destruct (gtb (x p) (width p - margin)) eqn:E2.
    + apply gtb_true in E2. right; left. simpl. auto.
    + apply gtb_false in E2. right; right. simpl. auto.
Qed.

Lemma bounceX_frame (p : t) :
  let q := fst (bounceX p) in
  y q = y p /\ vy q = vy p /\ width q = width p /\ height q = height p
  /\ maxSpeed q = maxSpeed p /\ history q = history p
  /\ maxHistory q = maxHistory p /\ hue q = hue p.
Proof.
  unfold bounceX.
  destruct (ltb (x p) margin); [ | destruct (gtb (x p) (width p - margin)) ];
    simpl; repeat split; reflexivity.
Qed.

(** The same for the Y check. *)
Lemma bounceY_cases (p : t) :
  let q := fst (bounceY p) in
  (y p < margin /\ y q = margin /\ vy q = abs (vy p) * damping
   /\ snd (bounceY p) = true)
  \/ (margin <= y p /\ y p > height p - margin /\ y q = height p - margin
      /\ vy q = - abs (vy p) * damping /\ snd (bounceY p) = true)
  \/ (margin <= y p <= height p - margin /\ q = p /\ snd (bounceY p) = false).
Proof.
  unfold bounceY.
  destruct (ltb (y p) margin) eqn:E1.
  - apply ltb_true in E1. left. simpl. auto.
  - apply ltb_false in E1.
    destruct (gtb (y p) (height p - margin)) eqn:E2.
    + apply gtb_true in E2. right; left. simpl. auto.
    + apply gtb_false in E2. right; right. simpl. auto.
Qed.

Lemma bounceY_frame (p : t) :
  let q := fst (bounceY p) in
  x q = x p /\ vx q = vx p /\ width q = width p /\ height q = height p
  /\ maxSpeed q = maxSpeed p /\ history q = history p
  /\ maxHistory q = maxHistory p /\ hue q = hue p.
Proof.
  unfold bounceY.
  destruct (ltb (y p) margin); [ | destruct (gtb (y p) (height p - margin)) ];
    simpl; repeat split; reflexivity.
Qed.

(** [update] unfolded along the two boundary checks. *)
Lemma update_step_checks (p : t) (force : Vec.t) (speed : R) :
  let m := moved p force speed in
  let bx := bounceX m in
  let by_ := bounceY (fst bx) in
  let b := snd bx || snd by_ in
  update_step p force speed =
  {| after := set_hue (if b then set_history (fst by_) [] else fst by_)
                      (speedOf (applyForce p force) / maxSpeed p * 120);
     currentSpeed := speedOf (applyForce p force);
     bounced := b |}.
Proof.
  intros m bx by_ b. unfold update_step.
  fold (capped p force). fold (moved p force speed). fold m.
  fold bx. destruct bx as [p5 b5] eqn:Ex. fold by_.
  assert (Hby : by_ = bounceY p5) by reflexivity.
  destruct (bounceY p5) as [p6 b6] eqn:Ey.
  assert (Hm : maxSpeed p6 = maxSpeed p).
  { pose proof (bounceY_frame p5) as Fy. rewrite Ey in Fy. simpl in Fy.
    pose proof (bounceX_frame m) as Fx. fold bx in Fx. rewrite Ex in Fx.
    simpl in Fx.
    destruct Fy as (_ & _ & _ & _ & Hy & _).
    destruct Fx as (_ & _ & _ & _ & Hx & _).
    rewrite Hy, Hx. unfold m, moved, integrate, pushHistory, capped, capSpeed.
    destruct (gtb _ _); reflexivity. }
  unfold b. rewrite Hby. simpl.
  destruct (b5 || b6); simpl; rewrite Hm; reflexivity.
Qed.

Lemma capped_frame (p : t) (force : Vec.t) :
  let c := capped p force in
  x c = x p /\ y c = y p /\ width c = width p /\ height c = height p
  /\ maxSpeed c = maxSpeed p /\ history c = history p
  /\ maxHistory c = maxHistory p.
Proof.
  unfold capped, capSpeed.
  destruct (gtb _ _); simpl; repeat split; reflexivity.
Qed.

Lemma moved_fields (p : t) (force : Vec.t) (speed : R) :
  let c := capped p force in
  let m := moved p force speed in
  x m = x p + vx c * speed /\ y m = y p + vy c * speed
  /\ vx m = vx c /\ vy m = vy c
  /\ width m = width p /\ height m = height p
  /\ maxSpeed m = maxSpeed p /\ maxHistory m = maxHistory p
  /\ history m = history (pushHistory c).
Proof.
  intros c m.
  destruct (capped_frame p force) as (Hx & Hy & Hw & Hh & Hm & _ & Hn).
  fold c in Hx, Hy, Hw, Hh, Hm, Hn.
  unfold m, moved, integrate, pushHistory. simpl. fold c.
  rewrite Hx, Hy, Hw, Hh, Hm, Hn. repeat split; reflexivity.
Qed.

(** After the cap the squared velocity is at most [maxSpeed] squared. *)
Lemma capSpeed_speed_sq (p1 : t) :
  0 <= maxSpeed p1 ->
  let c := capSpeed p1 (speedOf p1) in
  vx c * vx c + vy c * vy c <= maxSpeed p1 * maxSpeed p1.
Proof.
  intros HM. unfold capSpeed.
  assert (Hnn : 0 <= vx p1 * vx p1 + vy p1 * vy p1).
  { pose proof (Rle_0_sqr (vx p1)). pose proof (Rle_0_sqr (vy p1)).
    unfold Rsqr in *. lra. }
  pose proof (sqrt_sqrt _ Hnn) as Hsq.
  pose proof (sqrt_pos (vx p1 * vx p1 + vy p1 * vy p1)) as Hpos.
  fold (speedOf p1) in Hsq, Hpos.
  destruct (gtb (speedOf p1) (maxSpeed p1)) eqn:E.
  - apply gtb_true in E. simpl.
    assert (Hs : speedOf p1 <> 0) by lra.
    replace (vx p1 / speedOf p1 * maxSpeed p1
             * (vx p1 / speedOf p1 * maxSpeed p1)
             + vy p1 / speedOf p1 * maxSpeed p1
               * (vy p1 / speedOf p1 * maxSpeed p1))
      with (maxSpeed p1 * maxSpeed p1
            * ((vx p1 * vx p1 + vy p1 * vy p1) / (speedOf p1 * speedOf p1)))
      by (field; assumption).
    rewrite <- Hsq. unfold Rdiv. rewrite Rinv_r by nra. lra.
  - apply gtb_false in E. rewrite <- Hsq. nra.
Qed.

Lemma capped_speed_sq (p : t) (force : Vec.t) :
  0 <= maxSpeed p ->
  let c := capped p force in
  vx c * vx c + vy c * vy c <= maxSpeed p * maxSpeed p.
Proof.
  intros HM. unfold capped.
  apply (capSpeed_speed_sq (applyForce p force)). exact HM.
Qed.

(** One call of [update], axis by axis, in terms of the position after
    the integration step. *)
Lemma update_axis_x (p : t) (force : Vec.t) (speed : R) :
  let m := moved p force speed in
  let q := update p force speed in
  (x m < margin /\ x q = margin /\ vx q = abs (vx m) * damping)
  \/ (margin <= x m /\ x m > width p - margin /\ x q = width p - margin
      /\ vx q = - abs (vx m) * damping)
  \/ (margin <= x m <= width p - margin /\ x q = x m /\ vx q = vx m).
Proof.
  intros m q. unfold q, update. rewrite update_step_checks. fold m.
  cbn [after set_hue x y vx vy width height maxSpeed maxHistory].
  destruct (moved_fields p force speed) as (_ & _ & _ & _ & Hw & _).
  fold m in Hw.
  destruct (bounceY_frame (fst (bounceX m))) as (Hx & Hvx & _).
  assert (Hq : forall b : bool,
    x (if b then set_history (fst (bounceY (fst (bounceX m)))) []
       else fst (bounceY (fst (bounceX m)))) = x (fst (bounceX m))
    /\ vx (if b then set_history (fst (bounceY (fst (bounceX m)))) []
           else fst (bounceY (fst (bounceX m)))) = vx (fst (bounceX m))).
  { intros []; simpl; auto. }
  destruct (Hq (snd (bounceX m) || snd (bounceY (fst (bounceX m))))) as [Ex Ev].
  rewrite Ex, Ev. rewrite <- Hw.
  destruct (bounceX_cases m) as [H | [H | H]].
  - left. tauto.
  - right; left. tauto.
  - right; right. destruct H as (H1 & H2 & _). rewrite H2. tauto.
Qed.

Lemma update_axis_y (p : t) (force : Vec.t) (speed : R) :
  let m := moved p force speed in
  let q := update p force speed in
  (y m < margin /\ y q = margin /\ vy q = abs (vy m) * damping)
  \/ (margin <= y m /\ y m > height p - margin /\ y q = height p - margin
      /\ vy q = - abs (vy m) * damping)
  \/ (margin <= y m <= height p - margin /\ y q = y m /\ vy q = vy m).
Proof.
  intros m q. unfold q, update. rewrite update_step_checks. fold m.
  cbn [after set_hue x y vx vy width height maxSpeed maxHistory].
  destruct (moved_fields p force speed) as (_ & _ & _ & _ & _ & Hh & _).
  fold m in Hh.
  destruct (bounceX_frame m) as (Hy & Hvy & _ & Hh' & _).
  assert (Hq : forall b : bool,
    y (if b then set_history (fst (bounceY (fst (bounceX m)))) []
       else fst (bounceY (fst (bounceX m))))
    = y (fst (bounceY (fst (bounceX m))))
    /\ vy (if b then set_history (fst (bounceY (fst (bounceX m)))) []
           else fst (bounceY (fst (bounceX m))))
       = vy (fst (bounceY (fst (bounceX m))))).
  { intros []; simpl; auto. }
  destruct (Hq (snd (bounceX m) || snd (bounceY (fst (bounceX m))))) as [Ey Ev].
  rewrite Ey, Ev. rewrite <- Hh, <- Hh', <- Hy, <- Hvy.
  destruct (bounceY_cases (fst (bounceX m))) as [H | [H | H]].
  - left. tauto.
  - right; left. tauto.
  - right; right. destruct H as (H1 & H2 & _). rewrite H2. tauto.
Qed.

Lemma update_frame (p : t) (force : Vec.t) (speed : R) :
  let q := update p force speed in
  width q = width p /\ height q = height p /\ maxSpeed q = maxSpeed p
  /\ maxHistory q = maxHistory p.
Proof.
  intros q. unfold q, update. rewrite update_step_checks.
  cbn [after set_hue x y vx vy width height maxSpeed maxHistory].
  set (m := moved p force speed).
  destruct (moved_fields p force speed)
    as (_ & _ & _ & _ & Hw & Hh & Hm & Hn & _).
  fold m in Hw, Hh, Hm, Hn.
  destruct (bounceX_frame m) as (_ & _ & Xw & Xh & Xm & _ & Xn & _).
  destruct (bounceY_frame (fst (bounceX m)))
    as (_ & _ & Yw & Yh & Ym & _ & Yn & _).
  destruct (snd (bounceX m) || snd (bounceY (fst (bounceX m)))); simpl;
    rewrite ?Yw, ?Yh, ?Ym, ?Yn, ?Xw, ?Xh, ?Xm, ?Xn; auto.
Qed.

(** The flag [bounced] is set exactly when the integrated position lies
    beyond a margin on some axis. *)
Lemma update_bounced (p : t) (force : Vec.t) (speed : R) :
  let m := moved p force speed in
  bounced (update_step p force speed) = false <->
  (margin <= x m <= width p - margin /\ margin <= y m <= height p - margin).
Proof.
  intros m. rewrite update_step_checks. fold m. cbn [bounced].
  destruct (moved_fields p force speed) as (_ & _ & _ & _ & Hw & Hh & _).
  fold m in Hw, Hh.
  destruct (bounceX_frame m) as (Hy & _ & _ & Hh' & _).
  rewrite orb_false_iff.
  destruct (bounceX_cases m) as [H | [H | H]];
    destruct (bounceY_cases (fst (bounceX m))) as [G | [G | G]];
    rewrite ?Hy, ?Hh', ?Hw, ?Hh in *;
    split; intros K;
    try (destruct K as [K1 K2]; destruct H as (? & ? & ? & H'); 
         try destruct H' as (? & H'); congruence);
    try (destruct K as [K1 K2]; destruct G as (? & ? & ? & G');
         try destruct G' as (? & G'); congruence);
    try lra; try tauto.
Qed.

Lemma updates_frame (calls : list (Vec.t * R)) (p : t) :
  let q := updates p calls in
  width q = width p /\ height q = height p /\ maxSpeed q = maxSpeed p
  /\ maxHistory q = maxHistory p.
Proof.
  revert p. induction calls as [ | [f s] calls IH ]; intros p; simpl.
  - auto.
  - destruct (IH (update p f s)) as (Hw & Hh & Hm & Hn).
    destruct (update_frame p f s) as (Uw & Uh & Um & Un).
    unfold updates in *. simpl in *.
    rewrite Hw, Hh, Hm, Hn. auto.
Qed.

Lemma update_speed_sq (p : t) (force : Vec.t) (speed : R) :
  0 <= maxSpeed p ->
  let q := update p force speed in
  vx q * vx q + vy q * vy q <= maxSpeed p * maxSpeed p.
Proof.
  intros HM q.
  pose proof (capped_speed_sq p force HM) as Hc. cbv zeta in Hc.
  destruct (moved_fields p force speed) as (_ & _ & Hvx & Hvy & _).
  rewrite <- Hvx, <- Hvy in Hc.
  set (m := moved p force speed) in *.
  assert (Hx : vx q * vx q <= vx m * vx m).
  { destruct (update_axis_x p force speed) as [H | [H | H]]; fold m q in H.
    - destruct H as (_ & _ & ->). apply sqr_abs_damped.
    - destruct H as (_ & _ & _ & ->).
      replace (- abs (vx m) * damping * (- abs (vx m) * damping))
        with (Rabs (vx m) * damping * (Rabs (vx m) * damping))
        by (unfold abs; ring).
      apply sqr_abs_damped.
    - destruct H as (_ & _ & ->). lra. }
  assert (Hy : vy q * vy q <= vy m * vy m).
  { destruct (update_axis_y p force speed) as [H | [H | H]]; fold m q in H.
    - destruct H as (_ & _ & ->). apply sqr_abs_damped.
    - destruct H as (_ & _ & _ & ->).
      replace (- abs (vy m) * damping * (- abs (vy m) * damping))
        with (Rabs (vy m) * damping * (Rabs (vy m) * damping))
        by (unfold abs; ring).
      apply sqr_abs_damped.
    - destruct H as (_ & _ & ->). lra. }
  lra.
Qed.

Lemma sqrt_le_of_sq (a M : R) : 0 <= M -> a <= M * M -> sqrt a <= M.
Proof.
  intros HM Ha. rewrite <- (sqrt_square M HM).
  destruct (Rle_dec 0 a) as [H0 | H0].
  - apply sqrt_le_1; nra.
  - rewrite sqrt_neg_0 by lra. apply sqrt_pos.
Qed.

(** C3.  With [maxSpeed = 2], after each call of any run of [update]
    calls, whatever the forces and the speed multipliers, the velocity
    magnitude is at most [maxSpeed]; the bounce branches included. *)
Theorem speed_cap_invariant
  (p : t) (calls : list (Vec.t * R)) (force : Vec.t) (speed : R) :
  maxSpeed p = 2 ->
  let q := update (updates p calls) force speed in
  maxSpeed q = 2 /\ sqrt (vx q * vx q + vy q * vy q) <= maxSpeed q.
Proof.
  intros HM q.
  destruct (updates_frame calls p) as (_ & _ & Hm & _).
  destruct (update_frame (updates p calls) force speed) as (_ & _ & Um & _).
  fold q in Um.
  assert (Hq : maxSpeed q = 2) by congruence.
  split; [ exact Hq | ].
  rewrite Hq. apply sqrt_le_of_sq; [ lra | ].
  pose proof (update_speed_sq (updates p calls) force speed) as Hs.
  fold q in Hs. rewrite Hm, HM in Hs. apply Hs. lra.
Qed.

(** Where one call of [update] leaves the position. *)
Lemma update_inside (p : t) (force : Vec.t) (speed : R) :
  2 * margin <= width p -> 2 * margin <= height p ->
  let q := update p force speed in
  margin <= x q <= width p - margin /\ margin <= y q <= height p - margin.
Proof.
  intros Hw Hh q.
  destruct (update_axis_x p force speed) as [H | [H | H]];
    destruct (update_axis_y p force speed) as [G | [G | G]];
    fold q in H, G; unfold margin in *; split; lra.
Qed.

(** C4.  With stored dimensions of at least 4, after each call of any run
    of [update] calls the position is within the 2-unit margins. *)
Theorem boundary_containment
  (p : t) (calls : list (Vec.t * R)) (force : Vec.t) (speed : R) :
  4 <= width p -> 4 <= height p ->
  let q := update (updates p calls) force speed in
  2 <= x q <= width q - 2 /\ 2 <= y q <= height q - 2.
Proof.
  intros Hw Hh q.
  destruct (updates_frame calls p) as (Pw & Ph & _).
  destruct (update_frame (updates p calls) force speed) as (Uw & Uh & _).
  fold q in Uw, Uh.
  pose proof (update_inside (updates p calls) force speed) as Hin.
  fold q in Hin. unfold margin in Hin.
  rewrite Uw, Uh. apply Hin; lra.
Qed.

Lemma capped_no_cap (p : t) (force : Vec.t) :
  speedOf (applyForce p force) <= maxSpeed p ->
  capped p force = applyForce p force.
Proof.
  intros H. unfold capped, capSpeed.
  assert (E : gtb (speedOf (applyForce p force))
                  (maxSpeed (applyForce p force)) = false)
    by (apply gtb_false; exact H).
  now rewrite E.
Qed.

Lemma speedOf_applyForce_x (p : t) :
  vy p = 0 -> 0 <= vx p ->
  speedOf (applyForce p unit_x) = vx p + 0.3.
Proof.
  intros Hy Hx. unfold speedOf, applyForce, unit_x. simpl. rewrite Hy.
  replace ((vx p + 1 * 0.3) * (vx p + 1 * 0.3) + (0 + 0 * 0.3) * (0 + 0 * 0.3))
    with ((vx p + 0.3) * (vx p + 0.3)) by lra.
  apply sqrt_square. lra.
Qed.

Lemma update_hue (p : t) (force : Vec.t) (speed : R) :
  hue (update p force speed)
  = speedOf (applyForce p force) / maxSpeed p * 120.
Proof.
  unfold update. rewrite update_step_checks. reflexivity.
Qed.

Lemma cruise_step (p : t) (xv vv : R) :
  cruising p xv vv -> 0 <= vv -> vv + 0.3 <= 2 ->
  2 <= xv + (vv + 0.3) <= 798 ->
  cruising (update p unit_x 1) (xv + (vv + 0.3)) (vv + 0.3).
Proof.
  intros (Hx & Hy & Hvx & Hvy & Hw & Hh & Hm) H0 H2 Hin.
  pose proof (speedOf_applyForce_x p Hvy ltac:(lra)) as Hs.
  assert (Hc : capped p unit_x = applyForce p unit_x)
    by (apply capped_no_cap; lra).
  destruct (moved_fields p unit_x 1) as (Mx & My & Mvx & Mvy & _).
  rewrite Hc in Mx, My, Mvx, Mvy.
  change (vx (applyForce p unit_x)) with (vx p + 1 * 0.3) in Mx, Mvx.
  change (vy (applyForce p unit_x)) with (vy p + 0 * 0.3) in My, Mvy.
  destruct (update_frame p unit_x 1) as (Uw & Uh & Um & _).
  unfold cruising. rewrite Uw, Uh, Um.
  destruct (update_axis_x p unit_x 1) as [H | [H | H]];
    destruct (update_axis_y p unit_x 1) as [G | [G | G]];
    unfold margin in *; lra.
Qed.

Lemma demo_particle_cruising : cruising demo_particle 400 0.
Proof. unfold cruising, demo_particle; simpl. repeat split; lra. Qed.

(** C5.  A fresh particle pushed seven times by the unit force along +x:
    the seventh call caps the speed at [maxSpeed], yet leaves the hue at
    126, computed from the speed 2.1 of before the cap; the capped speed
    would give at most 120. *)
Theorem hue_uses_speed_before_cap :
  let q := updates demo_particle (repeat (unit_x, 1) 7) in
  hue q = 126
  /\ sqrt (vx q * vx q + vy q * vy q) / maxSpeed q * 120 <= 120.
Proof.
  intros q. unfold q, updates. simpl.
  pose proof demo_particle_cruising as C0.
  do 6 (apply cruise_step in C0; try lra).
  set (p6 := update _ unit_x 1) in *.
  destruct C0 as (Hx & Hy & Hvx & Hvy & Hw & Hh & Hm).
  split.
  - rewrite update_hue, speedOf_applyForce_x, Hvx, Hm by lra. lra.
  - destruct (update_frame p6 unit_x 1) as (_ & _ & Um & _).
    rewrite Um, Hm.
    pose proof (update_speed_sq p6 unit_x 1 ltac:(lra)) as Hs.
    cbv zeta in Hs. rewrite Hm in Hs.
    apply sqrt_le_of_sq in Hs; lra.
Qed.

(** The history one call of [update] leaves. *)
Lemma update_history (p : t) (force : Vec.t) (speed : R) :
  history (update p force speed)
  = if bounced (update_step p force speed) then []
    else history (pushHistory p).
Proof.
  unfold update. rewrite update_step_checks. cbn [after bounced].
  set (m := moved p force speed).
  destruct (moved_fields p force speed) as (_ & _ & _ & _ & _ & _ & _ & _ & Hh).
  fold m in Hh.
  destruct (capped_frame p force) as (Cx & Cy & _ & _ & _ & Ch & Cn).
  assert (Hp : history (pushHistory (capped p force))
               = history (pushHistory p)).
  { unfold pushHistory. cbn [history set_history]. now rewrite Cx, Cy, Ch, Cn. }
  destruct (bounceX_frame m) as (_ & _ & _ & _ & _ & Xh & _).
  destruct (bounceY_frame (fst (bounceX m))) as (_ & _ & _ & _ & _ & Yh & _).
  destruct (snd (bounceX m) || snd (bounceY (fst (bounceX m)))).
  - reflexivity.
  - cbn [history set_hue]. now rewrite Yh, Xh, Hh, Hp.
Qed.

(** Pushing onto a history of at most 20 entries: the oldest entry leaves
    when there are already 20, the new position goes last. *)
Lemma pushHistory_bounded (p : t) :
  maxHistory p = 20%nat -> (List.length (history p) <= 20)%nat ->
  history (pushHistory p)
  = (if (List.length (history p) <? 20)%nat then history p
     else tl (history p)) ++ [ {| Vec.x := x p; Vec.y := y p |} ]
  /\ (List.length (history (pushHistory p)) <= 20)%nat.
Proof.
  intros Hn Hl. unfold pushHistory. cbn [history set_history].
  rewrite Hn, length_app. cbn [List.length].
  destruct (Nat.ltb_spec 20 (List.length (history p) + 1));
    destruct (Nat.ltb_spec (List.length (history p)) 20); try lia.
  - destruct (history p) as [ | e h ] eqn:E; [ simpl in *; lia | ].
    simpl. split; [ reflexivity | ].
    rewrite length_app. simpl in *. lia.
  - split; [ reflexivity | ]. rewrite length_app. simpl. lia.
Qed.

Lemma update_history_length (p : t) (force : Vec.t) (speed : R) :
  maxHistory p = 20%nat -> (List.length (history p) <= 20)%nat ->
  (List.length (history (update p force speed)) <= 20)%nat.
Proof.
  intros Hn Hl. rewrite update_history.
  destruct (bounced _); [ simpl; lia | ].
  now apply pushHistory_bounded.
Qed.

Lemma updates_history_length (calls : list (Vec.t * R)) (p : t) :
  maxHistory p = 20%nat -> (List.length (history p) <= 20)%nat ->
  (List.length (history (updates p calls)) <= 20)%nat.
Proof.
  revert p. induction calls as [ | [f s] calls IH ]; intros p Hn Hl.
  - exact Hl.
  - unfold updates. simpl. apply IH.
    + destruct (update_frame p f s) as (_ & _ & _ & Un). congruence.
    + now apply update_history_length.
Qed.

(** C8.  Along any run of [update] calls the history never holds more
    than 20 positions; a call that bounced leaves it empty, and a call that
    did not drops the oldest entry of a full history and puts the position
    the particle had on entry last. *)
Theorem history_invariant (p : t) (calls : list (Vec.t * R)) :
  maxHistory p = 20%nat -> (List.length (history p) <= 20)%nat ->
  let q := updates p calls in
  (List.length (history q) <= 20)%nat
  /\ forall (force : Vec.t) (speed : R),
       let st := update_step q force speed in
       (bounced st = true -> history (after st) = [])
       /\ (bounced st = false ->
           history (after st)
           = (if (List.length (history q) <? 20)%nat then history q
              else tl (history q)) ++ [ {| Vec.x := x q; Vec.y := y q |} ]).
Proof.
  intros Hn Hl q.
  assert (Hq : (List.length (history q) <= 20)%nat)
    by now apply updates_history_length.
  assert (Hnq : maxHistory q = 20%nat).
  { destruct (updates_frame calls p) as (_ & _ & _ & Un). fold q in Un.
    congruence. }
  split; [ exact Hq | ].
  intros force speed st.
  pose proof (update_history q force speed) as Hu.
  unfold update in Hu. fold st in Hu.
  split; intros Hb; rewrite Hb in Hu; [ exact Hu | ].
  rewrite Hu. now apply pushHistory_bounded.
Qed.

Lemma history_invariant_witness :
  let q := updates demo_particle [(unit_x, 1)] in
  (List.length (history q) <= 20)%nat
  /\ forall (force : Vec.t) (speed : R),
       let st := update_step q force speed in
       (bounced st = true -> history (after st) = [])
       /\ (bounced st = false ->
           history (after st)
           = (if (List.length (history q) <? 20)%nat then history q
              else tl (history q)) ++ [ {| Vec.x := x q; Vec.y := y q |} ]).
Proof.
  apply (history_invariant demo_particle [(unit_x, 1)]).
  - reflexivity.
  - simpl. lia.
Defined.

Lemma speed_cap_invariant_witness :
  let q := update (updates demo_particle [(unit_x, 1)]) unit_x 1 in
  maxSpeed q = 2 /\ sqrt (vx q * vx q + vy q * vy q) <= maxSpeed q.
Proof.
  apply (speed_cap_invariant demo_particle [(unit_x, 1)] unit_x 1).
  reflexivity.
Defined.

Lemma boundary_containment_witness :
  let q := update (updates demo_particle [(unit_x, 1)]) unit_x 1 in
  2 <= x q <= width q - 2 /\ 2 <= y q <= height q - 2.
Proof.
  apply (boundary_containment demo_particle [(unit_x, 1)] unit_x 1);
    simpl; lra.
Defined.

(** C7, as stated, fails: constructed with the position (10, 20) given,
    the particle is not at (10, 20). *)
Lemma new_ignores_position_cex :
  let p := new (Some 10) (Some 20) 800 600 0.5 0.5 0.5 in
  x p = 400 /\ y p = 300 /\ (x p <> 10) /\ (y p <> 20).
Proof. simpl; repeat split; lra. Qed.

(** C7, amended.  The constructor never reads its [x] and [y] arguments:
    given or not, the position is the random point
    [(50 + r1 (width - 100), 50 + r2 (height - 100))], inside the 50-unit
    inset of a canvas of at least 100 x 100; the velocity is zero, the
    history empty and [maxSpeed] is 2. *)
Theorem new_position_random
  (x0 y0 : option R) (w h r1 r2 r3 : R) :
  let p := new x0 y0 w h r1 r2 r3 in
  x p = 50 + r1 * (w - 100) /\ y p = 50 + r2 * (h - 100)
  /\ p = new None None w h r1 r2 r3
  /\ vx p = 0 /\ vy p = 0 /\ history p = [] /\ maxSpeed p = 2
  /\ (0 <= r1 < 1 -> 0 <= r2 < 1 -> 100 <= w -> 100 <= h ->
      50 <= x p <= w - 50 /\ 50 <= y p <= h - 50).
Proof.
  intros p. unfold p, new. simpl.
  repeat split; try reflexivity; try lra; nra.
Qed.

Lemma new_position_random_witness :
  let p := new (Some 10) (Some 20) 800 600 0.5 0.5 0.5 in
  x p = 50 + 0.5 * (800 - 100) /\ y p = 50 + 0.5 * (600 - 100)
  /\ 50 <= x p <= 800 - 50 /\ 50 <= y p <= 600 - 50.
Proof.
  destruct (new_position_random (Some 10) (Some 20) 800 600 0.5 0.5 0.5)
    as (Hx & Hy & _ & _ & _ & _ & _ & Hin).
  split; [ exact Hx | ]. split; [ exact Hy | ].
  apply Hin; lra.
Defined.

(** Position and velocity after [update] are those the Y check leaves when
    it runs on the result of the X check. *)
Lemma update_checks_order (p : t) (force : Vec.t) (speed : R) :
  let m := moved p force speed in
  let r := fst (bounceY (fst (bounceX m))) in
  let st := update_step p force speed in
  x (after st) = x r /\ y (after st) = y r
  /\ vx (after st) = vx r /\ vy (after st) = vy r
  /\ bounced st = snd (bounceX m) || snd (bounceY (fst (bounceX m))).
Proof.
  intros m r st. unfold st. rewrite update_step_checks. fold m.
  cbn [after bounced]. fold r.
  destruct (snd (bounceX m) || snd (bounceY (fst (bounceX m))));
    repeat split; reflexivity.
Qed.

Lemma update_bounced_true (p : t) (force : Vec.t) (speed : R) :
  let m := moved p force speed in
  (x m < margin \/ x m > width p - margin
   \/ y m < margin \/ y m > height p - margin) ->
  bounced (update_step p force speed) = true.
Proof.
  intros m H.
  destruct (bounced (update_step p force speed)) eqn:E; [ reflexivity | ].
  apply update_bounced in E. fold m in E. lra.
Qed.

(** A particle at the left inset edge of the 800 x 600 canvas, and the
    same pushed along +x under the speed multiplier -200. *)
Lemma left_particle_moved :
  let p := new (Some 10) (Some 20) 800 600 0 0.5 0.5 in
  let m := moved p unit_x (-200) in
  x m = -10 /\ vx m = 0.3.
Proof.
  intros p m.
  assert (Hs : speedOf (applyForce p unit_x) = vx p + 0.3)
    by (apply speedOf_applyForce_x; simpl; lra).
  assert (Hc : capped p unit_x = applyForce p unit_x)
    by (apply capped_no_cap; rewrite Hs; simpl; lra).
  destruct (moved_fields p unit_x (-200)) as (Mx & _ & Mvx & _).
  fold m in Mx, Mvx. rewrite Hc in Mx, Mvx.
  change (vx (applyForce p unit_x)) with (0 + 1 * 0.3) in Mx, Mvx.
  change (x p) with (50 + 0 * (800 - 50 * 2)) in Mx.
  split; lra.
Qed.

(** C9, as stated, fails under a negative speed multiplier: the particle
    crosses the left margin while its velocity component is +0.3, and the
    bounce leaves +0.21, the same sign, not the negated value. *)
Lemma bounce_negative_speed_cex :
  let p := new (Some 10) (Some 20) 800 600 0 0.5 0.5 in
  let m := moved p unit_x (-200) in
  let q := update p unit_x (-200) in
  x m < margin /\ vx m = 0.3 /\ x q = margin /\ vx q = 0.21
  /\ (vx q <> - vx m * damping).
Proof.
  intros p m q.
  destruct left_particle_moved as [Mx Mvx]. fold p m in Mx, Mvx.
  destruct (update_axis_x p unit_x (-200)) as [H | [H | H]];
    fold m q in H; unfold margin, damping, abs in *;
    rewrite Mvx in *; try lra.
  destruct H as (H1 & H2 & H3).
  rewrite Rabs_pos_eq in H3 by lra. repeat split; lra.
Qed.

(** C9, amended.  For every force and every speed multiplier, each axis
    is tested against its low margin first: a position integrated below
    the 2-unit low margin is clamped to 2 and the velocity component of
    that axis becomes +0.7 times its magnitude; otherwise a position
    integrated above the dimension minus 2 is clamped there and the
    component becomes -0.7 times its magnitude (for a dimension of at
    least 4 the two cases exclude each other, so being above the high
    margin suffices); in both cases the call is marked as bounced; the Y
    check runs on the result of the X check.  Under a positive speed
    multiplier, from a position within the margins, the new component is
    the negated pre-collision value times 0.7. *)
Theorem bounce_response (p : t) (force : Vec.t) (speed : R) :
  let m := moved p force speed in
  let st := update_step p force speed in
  let q := after st in
  (x m < 2 ->
     x q = 2 /\ vx q = Rabs (vx m) * 0.7 /\ bounced st = true)
  /\ (2 <= x m -> x m > width p - 2 ->
     x q = width p - 2 /\ vx q = - Rabs (vx m) * 0.7 /\ bounced st = true)
  /\ (y m < 2 ->
     y q = 2 /\ vy q = Rabs (vy m) * 0.7 /\ bounced st = true)
  /\ (2 <= y m -> y m > height p - 2 ->
     y q = height p - 2 /\ vy q = - Rabs (vy m) * 0.7 /\ bounced st = true)
  /\ (0 < speed -> 2 <= x p <= width p - 2 ->
      x m < 2 \/ x m > width p - 2 -> vx q = - vx m * 0.7)
  /\ (0 < speed -> 2 <= y p <= height p - 2 ->
      y m < 2 \/ y m > height p - 2 -> vy q = - vy m * 0.7)
  /\ (4 <= width p -> x m > width p - 2 ->
     x q = width p - 2 /\ vx q = - Rabs (vx m) * 0.7 /\ bounced st = true)
  /\ (4 <= height p -> y m > height p - 2 ->
     y q = height p - 2 /\ vy q = - Rabs (vy m) * 0.7 /\ bounced st = true)
  /\ (let r := fst (bounceY (fst (bounceX m))) in
      x q = x r /\ y q = y r /\ vx q = vx r /\ vy q = vy r
      /\ bounced st = snd (bounceX m) || snd (bounceY (fst (bounceX m)))).
Proof.
  intros m st q.
  pose proof (update_axis_x p force speed) as HX.
  pose proof (update_axis_y p force speed) as HY.
  pose proof (update_bounced_true p force speed) as HB.
  destruct (moved_fields p force speed) as (Mx & My & Mvx & Mvy & _).
  fold m in HX, HY, HB, Mx, My, Mvx, Mvy.
  change (update p force speed) with q in HX, HY.
  fold st in HB. unfold margin, damping, abs in *.
  refine (conj _ (conj _ (conj _ (conj _ (conj _ (conj _
            (conj _ (conj _ _)))))))).
  - intros H. split; [ | split ]; [ lra | lra | apply HB; lra ].
  - intros H1 H2. split; [ | split ]; [ lra | lra | apply HB; lra ].
  - intros H. split; [ | split ]; [ lra | lra | apply HB; lra ].
  - intros H1 H2. split; [ | split ]; [ lra | lra | apply HB; lra ].
  - intros Hs Hp Hc.
    assert (Hsign : (x m < 2 -> vx m < 0) /\ (x m > width p - 2 -> 0 < vx m)).
    { rewrite <- Mvx in Mx. split; intros K; nra. }
    destruct Hsign as [Hneg Hpos].
    destruct HX as [H | [H | H]]; [ | | lra ].
    + destruct H as (K & _ & ->). rewrite Rabs_left by auto. lra.
    + destruct H as (_ & K & _ & ->). rewrite Rabs_pos_eq; [ lra | ].
      apply Rlt_le; auto.
  - intros Hs Hp Hc.
    assert (Hsign : (y m < 2 -> vy m < 0) /\ (y m > height p - 2 -> 0 < vy m)).
    { rewrite <- Mvy in My. split; intros K; nra. }
    destruct Hsign as [Hneg Hpos].
    destruct HY as [H | [H | H]]; [ | | lra ].
    + destruct H as (K & _ & ->). rewrite Rabs_left by auto. lra.
    + destruct H as (_ & K & _ & ->). rewrite Rabs_pos_eq; [ lra | ].
      apply Rlt_le; auto.
  - intros Hw H. split; [ | split ]; [ lra | lra | apply HB; lra ].
  - intros Hh H. split; [ | split ]; [ lra | lra | apply HB; lra ].
  - apply (update_checks_order p force speed).
Qed.

Lemma bounce_response_witness :
  let p := new (Some 10) (Some 20) 800 600 0 0.5 0.5 in
  let m := moved p unit_x (-200) in
  let st := update_step p unit_x (-200) in
  x (after st) = 2 /\ vx (after st) = Rabs (vx m) * 0.7
  /\ bounced st = true.
Proof.
  destruct (bounce_response (new (Some 10) (Some 20) 800 600 0 0.5 0.5)
              unit_x (-200)) as (H & _).
  apply H. destruct left_particle_moved as [Mx _]. lra.
Defined.

End Kinematics.

(** ** More on the flow field *)

Section FieldProperties.

Import FlowField.

(** X1.  [getVector] returns a unit vector, for every field state, mode
    and point. *)
Theorem getVector_unit (f : t) (x y : R) :
  let v := getVector f x y in
  Vec.x v * Vec.x v + Vec.y v * Vec.y v = 1.
Proof.
  unfold getVector. cbn [Vec.x Vec.y].
  set (a := mouseBlend f x y (modeAngle f x y)).
  pose proof (sin2_cos2 a) as H. unfold Rsqr in H. lra.
Qed.

(** X2.  The permutation table [initPerlin] builds has 512 entries, each
    in [0, 256), and its second half repeats the first. *)
Theorem initPerlin_perm_shape (rnd : nat -> R) :
  (forall k, 0 <= rnd k < 1) ->
  List.length (initPerlin_perm rnd) = 512%nat
  /\ (forall i, (0 <= i < 512)%Z ->
        (0 <= at_ (initPerlin_perm rnd) i < 256)%Z)
  /\ (forall i, (0 <= i < 256)%Z ->
        at_ (initPerlin_perm rnd) (i + 256) = at_ (initPerlin_perm rnd) i).
Proof.
  intros Hr. split; [ apply initPerlin_perm_length | ]. split.
  - intros i Hi. now apply initPerlin_perm_range.
  - intros i Hi. rewrite !initPerlin_perm_at by lia. f_equal.
    change 255%Z with (Z.ones 8). rewrite !Z.land_ones by lia.
    change (2 ^ 8)%Z with 256%Z.
    replace (i + 256)%Z with (i + 1 * 256)%Z by lia.
    apply Z_mod_plus_full.
Qed.

Lemma initPerlin_perm_shape_witness :
  List.length (initPerlin_perm demo_draws) = 512%nat
  /\ (forall i, (0 <= i < 512)%Z ->
        (0 <= at_ (initPerlin_perm demo_draws) i < 256)%Z)
  /\ (forall i, (0 <= i < 256)%Z ->
        at_ (initPerlin_perm demo_draws) (i + 256)
        = at_ (initPerlin_perm demo_draws) i).
Proof.
  apply (initPerlin_perm_shape demo_draws). intros k. unfold demo_draws. lra.
Defined.

(** X3.  The gradient table has 512 entries, each one of the twelve
    vectors of [grad3]. *)
Theorem initPerlin_gradP_shape (rnd : nat -> R) :
  (forall k, 0 <= rnd k < 1) ->
  List.length (initPerlin_gradP rnd) = 512%nat
  /\ Forall (fun g => In g grad3) (initPerlin_gradP rnd).
Proof.
  intros Hr. unfold initPerlin_gradP. split.
  - rewrite length_map. apply initPerlin_perm_length.
  - apply Forall_forall. intros g Hg. apply in_map_iff in Hg.
    destruct Hg as (z & <- & _).
    apply nth_In. change (List.length grad3) with 12%nat.
    pose proof (Z.mod_pos_bound z 12 ltac:(lia)). lia.
Qed.

Lemma initPerlin_gradP_shape_witness :
  List.length (initPerlin_gradP demo_draws) = 512%nat
  /\ Forall (fun g => In g grad3) (initPerlin_gradP demo_draws).
Proof.
  apply (initPerlin_gradP_shape demo_draws). intros k. unfold demo_draws. lra.
Defined.

Lemma floor_plus_IZR (r : R) (k : Z) :
  JSMath.floor (r + IZR k) = (JSMath.floor r + k)%Z.
Proof.
  pose proof (floor_frac r) as H. unfold JSMath.floor in *.
  symmetry. apply Int_part_spec. rewrite plus_IZR. lra.
Qed.

Lemma land_255_plus_256 (a k : Z) :
  Z.land (a + 256 * k) 255 = Z.land a 255.
Proof.
  change 255%Z with (Z.ones 8). rewrite !Z.land_ones by lia.
  change (2 ^ 8)%Z with 256%Z.
  replace (a + 256 * k)%Z with (a + k * 256)%Z by lia.
  apply Z_mod_plus_full.
Qed.

(** X4.  The noise repeats with period 256 along both axes, whatever the
    table holds. *)
Theorem noise2D_periodic (f : t) (x y : R) (i j : Z) :
  noise2D f (x + 256 * IZR i) (y + 256 * IZR j) = noise2D f x y.
Proof.
  unfold noise2D.
  replace (256 * IZR i) with (IZR (256 * i)) by (rewrite mult_IZR; reflexivity).
  replace (256 * IZR j) with (IZR (256 * j)) by (rewrite mult_IZR; reflexivity).
  rewrite !floor_plus_IZR, !land_255_plus_256.
  replace (x + IZR (256 * i) - IZR (JSMath.floor x + 256 * i))
    with (x - IZR (JSMath.floor x)) by (rewrite plus_IZR; ring).
  replace (y + IZR (256 * j) - IZR (JSMath.floor y + 256 * j))
    with (y - IZR (JSMath.floor y)) by (rewrite plus_IZR; ring).
  reflexivity.
Qed.

(** X5.  [grad] reads only the two low bits of the hash, and the hashes 1
    and 2 select the same gradient: the corner value is [x + y], [y - x]
    or [- x - y], never built from the direction (1, -1). *)
Theorem grad_cases (hash : Z) (x y : R) :
  grad hash x y =
  match Z.land hash 3 with
  | 0%Z => x + y
  | 3%Z => - x - y
  | _ => y - x
  end.
Proof.
  unfold grad.
  assert (Hr : (0 <= Z.land hash 3 < 4)%Z).
  { change 3%Z with (Z.ones 2). rewrite Z.land_ones by lia.
    apply Z.mod_pos_bound. lia. }
  assert (Hc : Z.land hash 3 = 0%Z \/ Z.land hash 3 = 1%Z
               \/ Z.land hash 3 = 2%Z \/ Z.land hash 3 = 3%Z) by lia.
  destruct Hc as [E | [E | [E | E]]]; rewrite E; simpl; lra.
Qed.

Lemma modeAngle_setMousePressed (f : t) (b : bool) (x y : R) :
  modeAngle (setMousePressed f b) x y = modeAngle f x y.
Proof. reflexivity. Qed.

(** X6.  A pressed pointer leaves the field untouched at every point at
    distance [mouseRadius] or more from it. *)
Theorem getVector_outside_radius (f : t) (x y : R) :
  mouseRadius f
  <= sqrt ((x - mouseX f) * (x - mouseX f) + (y - mouseY f) * (y - mouseY f)) ->
  getVector f x y = getVector (setMousePressed f false) x y.
Proof.
  intros Hd. unfold getVector. rewrite modeAngle_setMousePressed.
  rewrite (mouseBlend_inactive (setMousePressed f false)) by reflexivity.
  unfold mouseBlend. destruct (mousePressed f); [ | reflexivity ].
  cbv zeta.
  assert (E : JSMath.ltb
                (sqrt ((x - mouseX f) * (x - mouseX f)
                       + (y - mouseY f) * (y - mouseY f)))
                (mouseRadius f) = false) by (apply ltb_false; exact Hd).
  now rewrite E.
Qed.

Lemma getVector_outside_radius_witness :
  let f := setMousePressed (demo_field None) true in
  getVector f 400 500 = getVector (setMousePressed f false) 400 500.
Proof.
  apply (getVector_outside_radius
           (setMousePressed (demo_field None) true) 400 500).
  change (mouseRadius _) with 150.
  change (mouseX _) with (800 / 2). change (mouseY _) with (600 / 2).
  replace ((400 - 800 / 2) * (400 - 800 / 2)
           + (500 - 600 / 2) * (500 - 600 / 2)) with (200 * 200) by lra.
  rewrite sqrt_square; lra.
Defined.

Lemma iter_update_set_time (n : nat) (f : t) :
  Nat.iter n update f = set_time f (time f + INR n * timeSpeed f).
Proof.
  induction n as [ | n IH ].
  - simpl. destruct f; unfold set_time; cbn. f_equal. lra.
  - rewrite Nat.iter_succ, IH, S_INR. unfold update, set_time. cbn.
    f_equal. lra.
Qed.

(** X7.  [update] moves the time by [timeSpeed] per call and nothing
    else: [n] calls leave the field with only its time changed, to
    [time + n * timeSpeed]. *)
Theorem update_iter_time (n : nat) (f : t) :
  let g := Nat.iter n update f in
  time g = time f + INR n * timeSpeed f
  /\ g = set_time f (time g).
Proof.
  cbv zeta. rewrite iter_update_set_time. split; reflexivity.
Qed.

Lemma getVector_set_time_galaxy (f : t) (T x y : R) :
  mode f = "galaxy"%string ->
  getVector (set_time f T) x y = getVector f x y.
Proof.
  intros Hm. unfold getVector, modeAngle, set_time.
  cbn [mode scale time width height perm].
  rewrite Hm. reflexivity.
Qed.

(** X8.  In mode "galaxy" the field does not move with time: after any
    number of [update] calls [getVector] returns what it returned before. *)
Theorem galaxy_static (f : t) (n : nat) (x y : R) :
  mode f = "galaxy"%string ->
  getVector (Nat.iter n update f) x y = getVector f x y.
Proof.
  intros Hm. rewrite iter_update_set_time.
  now apply getVector_set_time_galaxy.
Qed.

Lemma galaxy_static_witness :
  getVector (Nat.iter 3 update (demo_field (Some "galaxy"%string))) 10 20
  = getVector (demo_field (Some "galaxy"%string)) 10 20.
Proof.
  apply (galaxy_static (demo_field (Some "galaxy"%string)) 3 10 20).
  reflexivity.
Defined.

(** X9.  A mode name outside the four known ones selects the angle 0:
    with the pointer inactive [getVector] is the constant (1, 0). *)
Theorem getVector_unknown_mode (f : t) (x y : R) :
  mode f <> "flow"%string -> mode f <> "galaxy"%string ->
  mode f <> "vortex"%string -> mode f <> "chaos"%string ->
  mousePressed f = false ->
  getVector f x y = {| Vec.x := 1; Vec.y := 0 |}.
Proof.
  intros H1 H2 H3 H4 Hp. unfold getVector.
  rewrite mouseBlend_inactive by assumption. unfold modeAngle.
  apply String.eqb_neq in H1, H2, H3, H4. rewrite H1, H2, H3, H4.
  now rewrite cos_0, sin_0.
Qed.

Lemma getVector_unknown_mode_witness :
  getVector (demo_field (Some "spiral"%string)) 10 20
  = {| Vec.x := 1; Vec.y := 0 |}.
Proof.
  apply (getVector_unknown_mode (demo_field (Some "spiral"%string)) 10 20);
    try reflexivity; discriminate.
Defined.

(** The increase of [fade] over a step [d], as a sum of squares. *)
Lemma fade_increase (a d : R) :
  fade (a + d) - fade a
  = 30 * d
    * ((a * (1 - a) + d * (1 - 2 * a) / 2 - d * d / 3)
       * (a * (1 - a) + d * (1 - 2 * a) / 2 - d * d / 3)
       + (d * (1 - 2 * a) - d * d) * (d * (1 - 2 * a) - d * d) / 12
       + (d * d) * (d * d) / 180).
Proof. unfold fade. field. Qed.

(** X10.  The smoothing curve never decreases, and goes from 0 at 0 to 1
    at 1. *)
Theorem fade_monotone (a b : R) :
  a <= b -> fade a <= fade b /\ fade 0 = 0 /\ fade 1 = 1.
Proof.
  intros Hab. split; [ | split; unfold fade; ring ].
  pose proof (fade_increase a (b - a)) as H.
  replace (a + (b - a)) with b in H by ring.
  set (u := a * (1 - a) + (b - a) * (1 - 2 * a) / 2
            - (b - a) * (b - a) / 3) in H.
  set (v := (b - a) * (1 - 2 * a) - (b - a) * (b - a)) in H.
  set (w := (b - a) * (b - a)) in H.
  pose proof (Rle_0_sqr u) as Hu. pose proof (Rle_0_sqr v) as Hv.
  pose proof (Rle_0_sqr w) as Hw. unfold Rsqr in Hu, Hv, Hw.
  assert (Hs : 0 <= u * u + v * v / 12 + w * w / 180) by lra.
  assert (Hp : 0 <= 30 * (b - a) * (u * u + v * v / 12 + w * w / 180)).
  { apply Rmult_le_pos; [ lra | exact Hs ]. }
  lra.
Qed.

Lemma fade_monotone_witness :
  fade 0.25 <= fade 0.75 /\ fade 0 = 0 /\ fade 1 = 1.
Proof. apply (fade_monotone 0.25 0.75). lra. Defined.

(** X11.  Every field the class can produce keeps the constants of the
    constructor (noise scale 100, pointer radius 150 and strength 0.5) and
    its 512-entry table; its time never is negative and its rate is one of
    the four positive mode rates, so [update] strictly increases the
    time. *)
Theorem reachable_invariants (f : t) :
  Reachable f ->
  scale f = 100 /\ mouseRadius f = 150 /\ mouseForce f = 0.5
  /\ List.length (perm f) = 512%nat
  /\ (timeSpeed f = 0.0003 \/ timeSpeed f = 0.0001
      \/ timeSpeed f = 0.0005 \/ timeSpeed f = 0.001)
  /\ 0 <= time f /\ time f < time (update f).
Proof.
  intros H.
  assert (Inv : scale f = 100 /\ mouseRadius f = 150 /\ mouseForce f = 0.5
                /\ List.length (perm f) = 512%nat
                /\ (timeSpeed f = 0.0003 \/ timeSpeed f = 0.0001
                    \/ timeSpeed f = 0.0005 \/ timeSpeed f = 0.001)
                /\ 0 <= time f).
  { induction H as [ w h m rnd | f H IH | f x y H IH | f b H IH
                   | f m H IH | f w h H IH ].
    - cbn [scale mouseRadius mouseForce perm timeSpeed time new].
      rewrite initPerlin_perm_length.
      repeat split; try reflexivity; try (left; reflexivity); lra.
    - destruct IH as (H1 & H2 & H3 & H4 & H5 & H6).
      unfold update, set_time.
      cbn [scale mouseRadius mouseForce perm timeSpeed time].
      repeat split; try assumption.
      destruct H5 as [E | [E | [E | E]]]; rewrite E; lra.
    - exact IH.
    - exact IH.
    - destruct IH as (H1 & H2 & H3 & H4 & H5 & H6).
      unfold setMode. cbn [scale mouseRadius mouseForce perm timeSpeed time].
      repeat split; try assumption.
      destruct (String.eqb m "galaxy"); [ tauto | ].
      destruct (String.eqb m "vortex"); [ tauto | ].
      destruct (String.eqb m "chaos"); tauto.
    - exact IH. }
  destruct Inv as (H1 & H2 & H3 & H4 & H5 & H6).
  repeat split; try assumption.
  unfold update, set_time. cbn [time].
  destruct H5 as [E | [E | [E | E]]]; rewrite E; lra.
Qed.

Lemma reachable_invariants_witness :
  let f := setMode (update (demo_field None)) "chaos" in
  scale f = 100 /\ time f < time (update f).
Proof.
  destruct (reachable_invariants
              (setMode (update (demo_field None)) "chaos"))
    as (H1 & _ & _ & _ & _ & _ & H7).
  - apply R_setMode, R_update, R_new.
  - split; assumption.
Defined.

(** X12.  The pointer blend is a weighted mean: for a positive radius and
    a strength between 0 and 1, the blended angle lies between the field
    angle and the repulsion angle, and moves away from the field angle by
    at most the strength times their difference. *)
Theorem mouseBlend_between (f : t) (x y a : R) :
  0 < mouseRadius f -> 0 <= mouseForce f <= 1 ->
  let ma := JSMath.atan2 (y - mouseY f) (x - mouseX f) + PI in
  Rmin a ma <= mouseBlend f x y a <= Rmax a ma
  /\ Rabs (mouseBlend f x y a - a) <= mouseForce f * Rabs (ma - a).
Proof.
  intros Hr Hf ma. unfold mouseBlend.
  assert (Hmm : Rmin a ma <= a <= Rmax a ma)
    by (split; [ apply Rmin_l | apply Rmax_l ]).
  assert (Hz : Rabs (a - a) <= mouseForce f * Rabs (ma - a)).
  { replace (a - a) with 0 by ring. rewrite Rabs_R0.
    apply Rmult_le_pos; [ lra | apply Rabs_pos ]. }
  destruct (mousePressed f); [ | split; assumption ].
  cbv zeta. fold ma.
  set (d := sqrt ((x - mouseX f) * (x - mouseX f)
                  + (y - mouseY f) * (y - mouseY f))).
  destruct (JSMath.ltb d (mouseRadius f)) eqn:E; [ | split; assumption ].
  apply ltb_true in E.
  assert (Hd : 0 <= d) by apply sqrt_pos.
  set (i := 1 - d / mouseRadius f).
  assert (Hi : 0 <= i <= 1).
  { unfold i. assert (0 <= d / mouseRadius f < 1).
    { split.
      - apply Rmult_le_pos; [ lra | ]. apply Rlt_le, Rinv_0_lt_compat, Hr.
      - apply (Rmult_lt_reg_r (mouseRadius f)); [ assumption | ].
        unfold Rdiv. rewrite Rmult_assoc, Rinv_l by lra. lra. }
    lra. }
  set (mx := i * mouseForce f).
  assert (Hmx : 0 <= mx <= mouseForce f) by (unfold mx; nra).
  split.
  - unfold Rmin, Rmax. destruct (Rle_dec a ma); split; nra.
  - replace (a * (1 - mx) + ma * mx - a) with (mx * (ma - a)) by ring.
    rewrite Rabs_mult, (Rabs_pos_eq mx) by lra.
    apply Rmult_le_compat_r; [ apply Rabs_pos | lra ].
Qed.

Lemma mouseBlend_between_witness :
  let f := setMousePressed (demo_field None) true in
  let ma := JSMath.atan2 (300 - mouseY f) (500 - mouseX f) + PI in
  Rmin 1 ma <= mouseBlend f 500 300 1 <= Rmax 1 ma
  /\ Rabs (mouseBlend f 500 300 1 - 1) <= mouseForce f * Rabs (ma - 1).
Proof.
  apply (mouseBlend_between (setMousePressed (demo_field None) true)
           500 300 1); cbn; lra.
Defined.

End FieldProperties.

(** ** More on the particle *)

Section ParticleProperties.

Import JSMath Particle.

(** X13.  [reset] leaves a particle as the constructor would build it from
    the same two draws, except that the hue is kept; in particular it has
    no velocity, no history, and sits inside the 50-unit inset of a canvas
    of at least 100 x 100. *)
Theorem reset_as_new (p : t) (x0 y0 : option R) (w h r1 r2 r3 : R) :
  maxSpeed p = 2 -> maxHistory p = 20%nat ->
  let q := reset p w h r1 r2 in
  q = set_hue (new x0 y0 w h r1 r2 r3) (hue p)
  /\ vx q = 0 /\ vy q = 0 /\ history q = []
  /\ (0 <= r1 < 1 -> 0 <= r2 < 1 -> 100 <= w -> 100 <= h ->
      50 <= x q <= w - 50 /\ 50 <= y q <= h - 50).
Proof.
  intros HM HN q. unfold q, reset, new, set_hue. cbn.
  rewrite HM, HN. repeat split; try reflexivity; nra.
Qed.

Lemma reset_as_new_witness :
  let q := reset (update demo_particle unit_x 1) 1000 700 0.25 0.75 in
  q = set_hue (new None None 1000 700 0.25 0.75 0)
              (hue (update demo_particle unit_x 1))
  /\ 50 <= x q <= 1000 - 50 /\ 50 <= y q <= 700 - 50.
Proof.
  destruct (reset_as_new (update demo_particle unit_x 1) None None
              1000 700 0.25 0.75 0) as (Hq & _ & _ & _ & Hin).
  - destruct (update_frame demo_particle unit_x 1) as (_ & _ & Hm & _).
    rewrite Hm. reflexivity.
  - destruct (update_frame demo_particle unit_x 1) as (_ & _ & _ & Hn).
    rewrite Hn. reflexivity.
  - split; [ exact Hq | ]. apply Hin; lra.
Defined.

Lemma speedOf_sq (p : t) :
  speedOf p * speedOf p = vx p * vx p + vy p * vy p /\ 0 <= speedOf p.
Proof.
  unfold speedOf. split; [ | apply sqrt_pos ].
  apply sqrt_sqrt.
  pose proof (Rle_0_sqr (vx p)). pose proof (Rle_0_sqr (vy p)).
  unfold Rsqr in *. lra.
Qed.

(** X14.  The speed cap rescales: a velocity faster than [maxSpeed] is
    multiplied by [maxSpeed / speed], a factor between 0 and 1, which
    leaves its direction and brings its magnitude to exactly [maxSpeed];
    a velocity within the cap is left alone. *)
Theorem capSpeed_rescales (p : t) :
  0 < maxSpeed p ->
  let c := capSpeed p (speedOf p) in
  let k := maxSpeed p / speedOf p in
  (speedOf p > maxSpeed p ->
     0 < k < 1 /\ vx c = k * vx p /\ vy c = k * vy p
     /\ speedOf c = maxSpeed p)
  /\ (speedOf p <= maxSpeed p -> c = p).
Proof.
  intros HM c k. unfold c, capSpeed. split.
  - intros Hgt.
    assert (E : gtb (speedOf p) (maxSpeed p) = true) by now apply gtb_true.
    rewrite E. cbn [vx vy set_vel].
    assert (Hs : 0 < speedOf p) by lra.
    assert (Hk : 0 < k < 1).
    { unfold k. split.
      - apply Rdiv_lt_0_compat; assumption.
      - apply (Rmult_lt_reg_r (speedOf p)); [ assumption | ].
        unfold Rdiv. rewrite Rmult_assoc, Rinv_l by lra. lra. }
    split; [ exact Hk | ].
    split; [ unfold k; field; lra | ].
    split; [ unfold k; field; lra | ].
    destruct (speedOf_sq p) as [Hsq _].
    unfold speedOf at 1. cbn [vx vy set_vel].
    replace (vx p / speedOf p * maxSpeed p * (vx p / speedOf p * maxSpeed p)
             + vy p / speedOf p * maxSpeed p
               * (vy p / speedOf p * maxSpeed p))
      with (maxSpeed p * maxSpeed p
            * ((vx p * vx p + vy p * vy p) / (speedOf p * speedOf p)))
      by (field; lra).
    rewrite <- Hsq. unfold Rdiv at 1. rewrite Rinv_r by nra.
    rewrite Rmult_1_r. apply sqrt_square. lra.
  - intros Hle.
    assert (E : gtb (speedOf p) (maxSpeed p) = false) by now apply gtb_false.
    now rewrite E.
Qed.

Lemma capSpeed_rescales_witness :
  let p := applyForce (set_vel demo_particle 3 4)
                      {| Vec.x := 0; Vec.y := 0 |} in
  let c := capSpeed p (speedOf p) in
  speedOf c = maxSpeed p.
Proof.
  intros p c.
  assert (Hs : speedOf p = 5).
  { unfold speedOf, p. cbn.
    replace ((3 + 0 * 0.3) * (3 + 0 * 0.3) + (4 + 0 * 0.3) * (4 + 0 * 0.3))
      with (5 * 5) by lra.
    apply sqrt_square. lra. }
  destruct (capSpeed_rescales p) as [H _].
  - cbn. lra.
  - apply H. rewrite Hs. cbn. lra.
Defined.

Lemma updates_speed_sq (calls : list (Vec.t * R)) (p : t) :
  maxSpeed p = 2 -> vx p * vx p + vy p * vy p <= 4 ->
  let q := updates p calls in
  maxSpeed q = 2 /\ vx q * vx q + vy q * vy q <= 4.
Proof.
  revert p. induction calls as [ | [f s] calls IH ]; intros p HM Hv.
  - split; assumption.
  - unfold updates. simpl. apply IH.
    + destruct (update_frame p f s) as (_ & _ & Um & _). congruence.
    + pose proof (update_speed_sq p f s ltac:(lra)) as H.
      cbv zeta in H. rewrite HM in H. lra.
Qed.

(** The speed right after the force is added, for a force of at most unit
    length on a particle within the cap. *)
Lemma applyForce_speed (p : t) (force : Vec.t) :
  vx p * vx p + vy p * vy p <= 4 ->
  Vec.x force * Vec.x force + Vec.y force * Vec.y force <= 1 ->
  0 <= speedOf (applyForce p force) <= 2.3.
Proof.
  intros Hv Hf. split; [ apply sqrt_pos | ].
  unfold speedOf, applyForce. cbn [vx vy set_vel].
  set (a := vx p) in *. set (b := vy p) in *.
  set (c := Vec.x force) in *. set (d := Vec.y force) in *.
  replace 2.3 with (23 / 10) by lra.
  apply sqrt_le_of_sq; [ lra | ].
  (* Cauchy-Schwarz: a c + b d <= 2 *)
  assert (Hcs : a * c + b * d <= 2).
  { assert (Hsq : (a * c + b * d) * (a * c + b * d)
                  <= (a * a + b * b) * (c * c + d * d)).
    { pose proof (Rle_0_sqr (a * d - b * c)) as H. unfold Rsqr in H. nra. }
    assert (Hb : (a * a + b * b) * (c * c + d * d) <= 4).
    { assert (0 <= a * a + b * b) by nra. assert (0 <= c * c + d * d) by nra.
      nra. }
    nra. }
  nra.
Qed.

(** X15.  Driven by forces of at most unit length, as [getVector] returns
    them, a particle within the speed cap always ends a call of [update]
    with a hue between 0 and 138. *)
Theorem hue_range
  (p : t) (calls : list (Vec.t * R)) (force : Vec.t) (speed : R) :
  maxSpeed p = 2 -> vx p * vx p + vy p * vy p <= 4 ->
  Vec.x force * Vec.x force + Vec.y force * Vec.y force <= 1 ->
  0 <= hue (update (updates p calls) force speed) <= 138.
Proof.
  intros HM Hv Hf.
  destruct (updates_speed_sq calls p HM Hv) as [Hm Hq].
  rewrite update_hue, Hm.
  pose proof (applyForce_speed (updates p calls) force Hq Hf). lra.
Qed.

Lemma hue_range_witness :
  0 <= hue (update (updates demo_particle [(unit_x, 1)]) unit_x 1) <= 138.
Proof.
  apply (hue_range demo_particle [(unit_x, 1)] unit_x 1).
  - reflexivity.
  - cbn. lra.
  - cbn. lra.
Defined.

(** One call of [update] moves a particle that is within the margins by
    at most the capped velocity times the multiplier, on each axis. *)
Lemma update_axis_move (p : t) (force : Vec.t) (speed : R) :
  margin <= x p <= width p - margin -> margin <= y p <= height p - margin ->
  let c := capped p force in
  let q := update p force speed in
  (x q - x p) * (x q - x p) <= (vx c * speed) * (vx c * speed)
  /\ (y q - y p) * (y q - y p) <= (vy c * speed) * (vy c * speed).
Proof.
  intros Hx Hy c q.
  destruct (moved_fields p force speed) as (Mx & My & _).
  fold c in Mx, My.
  destruct (update_axis_x p force speed) as [H | [H | H]];
    destruct (update_axis_y p force speed) as [G | [G | G]];
    fold q in H, G; split; nra.
Qed.

(** The squared length of one step of a particle within the margins. *)
Lemma update_dist_sq (p : t) (force : Vec.t) (speed : R) :
  0 <= maxSpeed p ->
  margin <= x p <= width p - margin -> margin <= y p <= height p - margin ->
  let q := update p force speed in
  (x q - x p) * (x q - x p) + (y q - y p) * (y q - y p)
  <= maxSpeed p * Rabs speed * (maxSpeed p * Rabs speed).
Proof.
  intros HM Hx Hy q.
  destruct (update_axis_move p force speed Hx Hy) as [Dx Dy]. fold q in Dx, Dy.
  pose proof (capped_speed_sq p force HM) as Hc. cbv zeta in Hc.
  set (c := capped p force) in *.
  assert (Hss : Rabs speed * Rabs speed = speed * speed).
  { unfold Rabs; destruct (Rcase_abs speed); ring. }
  replace (maxSpeed p * Rabs speed * (maxSpeed p * Rabs speed))
    with (maxSpeed p * maxSpeed p * (speed * speed)) by (rewrite <- Hss; ring).
  assert (0 <= speed * speed) by nra.
  nra.
Qed.

(** X16.  A particle within the margins never jumps: one call of [update]
    moves it by at most [maxSpeed * |speed|], bounce or not. *)
Theorem update_distance (p : t) (force : Vec.t) (speed : R) :
  0 <= maxSpeed p ->
  margin <= x p <= width p - margin -> margin <= y p <= height p - margin ->
  let q := update p force speed in
  sqrt ((x q - x p) * (x q - x p) + (y q - y p) * (y q - y p))
  <= maxSpeed p * Rabs speed.
Proof.
  intros HM Hx Hy q.
  pose proof (Rabs_pos speed) as Hs.
  apply sqrt_le_of_sq; [ nra | ].
  now apply update_dist_sq.
Qed.

Lemma update_distance_witness :
  let q := update demo_particle unit_x 1 in
  sqrt ((x q - x demo_particle) * (x q - x demo_particle)
        + (y q - y demo_particle) * (y q - y demo_particle))
  <= maxSpeed demo_particle * Rabs 1.
Proof.
  apply (update_distance demo_particle unit_x 1);
    unfold margin; cbn; lra.
Defined.

(** The entries of a history and the position, within the margins. *)
Lemma pushHistory_inside (p : t) (P : Vec.t -> Prop) :
  Forall P (history p) -> P {| Vec.x := x p; Vec.y := y p |} ->
  Forall P (history (pushHistory p)).
Proof.
  intros Hh Hp. unfold pushHistory. cbn [history set_history].
  assert (Ha : Forall P (history p ++ [ {| Vec.x := x p; Vec.y := y p |} ])).
  { apply Forall_app. split; [ assumption | ]. constructor; auto. }
  destruct (_ <? _)%nat; [ | exact Ha ].
  destruct (history p ++ [ {| Vec.x := x p; Vec.y := y p |} ]) as [ | e l ];
    [ constructor | ].
  simpl. now inversion Ha.
Qed.

(** X17.  Every position kept in the history lies within the margins of
    the canvas, along any run of [update] calls on a particle that starts
    within them. *)
Theorem history_inside (p : t) (calls : list (Vec.t * R)) :
  4 <= width p -> 4 <= height p ->
  2 <= x p <= width p - 2 -> 2 <= y p <= height p - 2 ->
  Forall (fun e => 2 <= Vec.x e <= width p - 2
                   /\ 2 <= Vec.y e <= height p - 2) (history p) ->
  let q := updates p calls in
  Forall (fun e => 2 <= Vec.x e <= width p - 2
                   /\ 2 <= Vec.y e <= height p - 2) (history q)
  /\ 2 <= x q <= width p - 2 /\ 2 <= y q <= height p - 2.
Proof.
  revert p. induction calls as [ | [f s] calls IH ];
    intros p Hw Hh Hx Hy Hi.
  - simpl. auto.
  - unfold updates. simpl.
    destruct (update_frame p f s) as (Uw & Uh & _).
    pose proof (update_inside p f s) as Hin. unfold margin in Hin.
    destruct Hin as [Ix Iy]; [ lra | lra | ].
    specialize (IH (update p f s)). rewrite Uw, Uh in IH.
    apply IH; try assumption.
    rewrite update_history. destruct (bounced _); [ constructor | ].
    apply pushHistory_inside; [ assumption | ]. simpl. auto.
Qed.

Lemma history_inside_witness :
  let q := updates demo_particle [(unit_x, 1); (unit_x, 1)] in
  Forall (fun e => 2 <= Vec.x e <= width demo_particle - 2
                   /\ 2 <= Vec.y e <= height demo_particle - 2) (history q)
  /\ 2 <= x q <= width demo_particle - 2
  /\ 2 <= y q <= height demo_particle - 2.
Proof.
  apply (history_inside demo_particle [(unit_x, 1); (unit_x, 1)]);
    cbn; try lra. constructor.
Defined.

End ParticleProperties.

(** ** The particle system *)

Section ColourProperties.

Import JSMath ParticleSystem.

Lemma leb_true r1 r2 : leb r1 r2 = true <-> r1 <= r2.
Proof.
  unfold leb; destruct (Rle_dec r1 r2); split; intros; auto; discriminate.
Qed.

Lemma leb_false r1 r2 : leb r1 r2 = false <-> r2 < r1.
Proof.
  unfold leb; destruct (Rle_dec r1 r2); split; intros; auto;
    try discriminate; lra.
Qed.

Lemma round_range (v : R) : 0 <= v <= 255 -> (0 <= round v <= 255)%Z.
Proof.
  intros [H0 H1]. unfold round.
  pose proof (floor_frac (v + 0.5)) as Hf.
  split.
  - assert (-1 < IZR (floor (v + 0.5))) by lra.
    apply lt_IZR in H. lia.
  - assert (IZR (floor (v + 0.5)) < 256) by lra.
    apply lt_IZR in H. lia.
Qed.

Lemma round_IZR (z : Z) : round (IZR z) = z.
Proof.
  unfold round, floor. symmetry. apply Int_part_spec. lra.
Qed.

(** For a dividend that is not negative, [a % 2] lies in [0, 2). *)
Lemma rem_2_range (a : R) : 0 <= a -> 0 <= rem a 2 < 2.
Proof.
  intros Ha. unfold rem, trunc.
  destruct (Rle_dec 0 (a / 2)) as [H | H]; [ | lra ].
  pose proof (floor_frac (a / 2)). lra.
Qed.

Lemma toInt32_small (z : Z) : (0 <= z < 2 ^ 31)%Z -> toInt32 z = z.
Proof.
  unfold toInt32. change (2 ^ 31)%Z with 2147483648%Z.
  change (2 ^ 32)%Z with 4294967296%Z. intros H.
  rewrite Z.mod_small by lia. lia.
Qed.

Lemma land_shiftl_low (hi lo n : Z) :
  (0 <= n)%Z -> (0 <= lo < 2 ^ n)%Z -> Z.land (Z.shiftl hi n) lo = 0%Z.
Proof.
  intros Hn Hlo. apply Z.bits_inj'. intros k Hk.
  rewrite Z.land_spec, Z.bits_0.
  destruct (Z.lt_ge_cases k n) as [Hlt | Hge].
  - rewrite Z.shiftl_spec_low by assumption. reflexivity.
  - rewrite <- (Z.mod_small lo (2 ^ n)) by assumption.
    rewrite Z.mod_pow2_bits_high by lia. apply andb_false_r.
Qed.

Lemma lor_shiftl_low (hi lo n : Z) :
  (0 <= n)%Z -> (0 <= lo < 2 ^ n)%Z ->
  Z.lor (Z.shiftl hi n) lo = (hi * 2 ^ n + lo)%Z.
Proof.
  intros Hn Hlo.
  pose proof (land_shiftl_low hi lo n Hn Hlo) as H0.
  rewrite <- Z.lxor_lor, <- Z.add_nocarry_lxor by assumption.
  now rewrite Z.shiftl_mul_pow2 by assumption.
Qed.

(** Packing three bytes with [<<] and [|]. *)
Lemma pack_bytes (r g b : Z) :
  (0 <= r <= 255)%Z -> (0 <= g <= 255)%Z -> (0 <= b <= 255)%Z ->
  bor (bor (shl r 16) (shl g 8)) b = (r * 65536 + g * 256 + b)%Z.
Proof.
  intros Hr Hg Hb. unfold bor, shl.
  assert (P31 : (2 ^ 31 = 2147483648)%Z) by reflexivity.
  rewrite (toInt32_small r), (toInt32_small g), (toInt32_small b) by lia.
  rewrite !Z.shiftl_mul_pow2 by lia.
  change (2 ^ 16)%Z with 65536%Z. change (2 ^ 8)%Z with 256%Z.
  rewrite !(toInt32_small (r * 65536)), !(toInt32_small (g * 256)) by lia.
  assert (E1 : Z.lor (r * 65536) (g * 256) = (r * 65536 + g * 256)%Z).
  { pose proof (lor_shiftl_low r (g * 256) 16 ltac:(lia)) as H.
    rewrite Z.shiftl_mul_pow2 in H by lia.
    change (2 ^ 16)%Z with 65536%Z in H. apply H. lia. }
  rewrite E1. rewrite (toInt32_small (r * 65536 + g * 256)) by lia.
  pose proof (lor_shiftl_low (r * 256 + g) b 8 ltac:(lia)) as H.
  rewrite Z.shiftl_mul_pow2 in H by lia.
  change (2 ^ 8)%Z with 256%Z in H.
  replace (r * 65536 + g * 256)%Z with ((r * 256 + g) * 256)%Z by lia.
  rewrite H by lia. lia.
Qed.

(** The colour quantities of [hslToHex] for a saturation and a lightness
    between 0 and 100. *)
Lemma chroma_range (s l : R) :
  0 <= s <= 100 -> 0 <= l <= 100 ->
  let c := (1 - abs (2 * (l / 100) - 1)) * (s / 100) in
  let m := l / 100 - c / 2 in
  0 <= c /\ 0 <= m /\ m + c <= 1.
Proof.
  intros Hs Hl c m. unfold m, c, abs, Rabs.
  destruct (Rcase_abs (2 * (l / 100) - 1)); repeat split; nra.
Qed.

Lemma hslChannels_range (h s l : R) :
  0 <= s <= 100 -> 0 <= l <= 100 ->
  let '(r, g, b) := hslChannels h s l in
  (0 <= r <= 255)%Z /\ (0 <= g <= 255)%Z /\ (0 <= b <= 255)%Z.
Proof.
  intros Hs Hl. unfold hslChannels.
  destruct (chroma_range s l Hs Hl) as (Hc & Hm & Hmc).
  set (c := (1 - abs (2 * (l / 100) - 1)) * (s / 100)) in *.
  set (m := l / 100 - c / 2) in *.
  set (x := c * (1 - abs (rem (h / 60) 2 - 1))).
  assert (Hx : 0 <= h -> 0 <= x <= c).
  { intros Hh. pose proof (rem_2_range (h / 60) ltac:(lra)) as Hr.
    unfold x, abs, Rabs. destruct (Rcase_abs (rem (h / 60) 2 - 1)); nra. }
  assert (Hv : forall v, 0 <= v <= c -> (0 <= round ((v + m) * 255) <= 255)%Z).
  { intros v Hvc. apply round_range. nra. }
  assert (H0 : 0 <= 0 <= c) by lra. assert (Hcc : 0 <= c <= c) by lra.
  repeat match goal with
  | |- context [ if leb ?lo h && ltb h ?hi then _ else _ ] =>
      let E := fresh "E" in
      destruct (leb lo h && ltb h hi) eqn:E;
      [ apply andb_prop in E; destruct E as [E _]; apply leb_true in E;
        assert (0 <= x <= c) by (apply Hx; lra); cbn; auto | ]
  end.
  cbn. auto.
Qed.

(** X18.  For a saturation and a lightness between 0 and 100 and any hue,
    the three channels of [hslToHex] are bytes and the result packs them
    as 0xRRGGBB: shifting and masking the result gives the channels back. *)
Theorem hslToHex_packs (h s l : R) :
  0 <= s <= 100 -> 0 <= l <= 100 ->
  let '(r, g, b) := hslChannels h s l in
  let hex := hslToHex h s l in
  (0 <= r <= 255 /\ 0 <= g <= 255 /\ 0 <= b <= 255)%Z
  /\ hex = (r * 65536 + g * 256 + b)%Z
  /\ Z.shiftr hex 16 = r
  /\ Z.land (Z.shiftr hex 8) 255 = g
  /\ Z.land hex 255 = b.
Proof.
  intros Hs Hl. pose proof (hslChannels_range h s l Hs Hl) as Hr.
  unfold hslToHex. destruct (hslChannels h s l) as [[r g] b].
  destruct Hr as (Rr & Rg & Rb). cbv zeta.
  rewrite pack_bytes by assumption.
  split; [ auto | ]. split; [ reflexivity | ].
  rewrite !Z.shiftr_div_pow2 by lia.
  change 255%Z with (Z.ones 8). rewrite !Z.land_ones by lia.
  change (2 ^ 16)%Z with 65536%Z. change (2 ^ 8)%Z with 256%Z.
  repeat split.
  - symmetry. apply Z.div_unique with (r := (g * 256 + b)%Z); lia.
  - replace ((r * 65536 + g * 256 + b) / 256)%Z with (r * 256 + g)%Z
      by (apply Z.div_unique with (r := b); lia).
    symmetry. apply Z.mod_unique with (q := r); lia.
  - symmetry. apply Z.mod_unique with (q := (r * 256 + g)%Z); lia.
Qed.

Lemma hslToHex_packs_witness :
  let '(r, g, b) := hslChannels 90 100 50 in
  Z.shiftr (hslToHex 90 100 50) 16 = r.
Proof.
  pose proof (hslToHex_packs 90 100 50 ltac:(lra) ltac:(lra)) as H.
  destruct (hslChannels 90 100 50) as [[r g] b].
  cbv zeta in H. exact (proj1 (proj2 (proj2 H))).
Defined.

(** X19.  A hue below 0 or from 360 up falls through every branch: the
    three channels are equal, the colour is a grey. *)
Theorem hslChannels_grey (h s l : R) :
  h < 0 \/ 360 <= h ->
  let '(r, g, b) := hslChannels h s l in r = g /\ g = b.
Proof.
  intros Hh. unfold hslChannels.
  assert (E : forall lo hi, 0 <= lo -> hi <= 360 ->
                leb lo h && ltb h hi = false).
  { intros lo hi Hlo Hhi. apply andb_false_iff.
    destruct Hh as [Hn | Hp].
    - left. apply leb_false. lra.
    - right. apply ltb_false. lra. }
  rewrite !E by lra. split; reflexivity.
Qed.

Lemma hslChannels_grey_witness :
  let '(r, g, b) := hslChannels 360 100 50 in r = g /\ g = b.
Proof. apply (hslChannels_grey 360 100 50). right. lra. Defined.

(** X20.  At full saturation and half lightness, as [update] calls it, a
    hue in [0, 360) gives a pure colour: the strongest channel is 255 and
    the weakest is 0. *)
Theorem hslChannels_saturated (h : R) :
  0 <= h < 360 ->
  let '(r, g, b) := hslChannels h 100 50 in
  Z.max r (Z.max g b) = 255%Z /\ Z.min r (Z.min g b) = 0%Z.
Proof.
  intros Hh.
  pose proof (hslChannels_range h 100 50 ltac:(lra) ltac:(lra)) as Hr.
  unfold hslChannels in *.
  assert (Ec : (1 - abs (2 * (50 / 100) - 1)) * (100 / 100) = 1).
  { replace (2 * (50 / 100) - 1) with 0 by lra.
    unfold abs. rewrite Rabs_R0. lra. }
  rewrite Ec in *.
  replace (50 / 100 - 1 / 2) with 0 in * by lra.
  set (x := 1 * (1 - abs (rem (h / 60) 2 - 1))) in *.
  assert (E255 : round ((1 + 0) * 255) = 255%Z).
  { replace ((1 + 0) * 255) with (IZR 255) by lra. apply round_IZR. }
  assert (E0 : round ((0 + 0) * 255) = 0%Z).
  { replace ((0 + 0) * 255) with (IZR 0) by lra. apply round_IZR. }
  repeat match goal with
  | |- context [ if leb ?lo h && ltb h ?hi then _ else _ ] =>
      let E := fresh "E" in
      destruct (leb lo h && ltb h hi) eqn:E;
      [ cbn in Hr |- *; rewrite E255, E0 in *; lia | ]
  end.
  exfalso.
  repeat match goal with
  | E : leb ?lo h && ltb h ?hi = false |- _ =>
      apply andb_false_iff in E;
      rewrite leb_false, ltb_false in E
  end.
  lra.
Qed.

Lemma hslChannels_saturated_witness :
  let '(r, g, b) := hslChannels 90 100 50 in
  Z.max r (Z.max g b) = 255%Z /\ Z.min r (Z.min g b) = 0%Z.
Proof. apply (hslChannels_saturated 90). lra. Defined.

End ColourProperties.

Section SystemProperties.

Import JSMath Random ParticleSystem.

Lemma pushed_at_rest (rnd : nat -> R) (w h : R) (k : nat) :
  at_rest w h (pushed rnd w h k).
Proof. unfold at_rest, pushed. cbn. repeat split; reflexivity. Qed.

Lemma pushed_in_inset (rnd : nat -> R) (w h : R) (k : nat) :
  (forall i, 0 <= rnd i < 1) -> 100 <= w -> 100 <= h ->
  in_inset w h (pushed rnd w h k).
Proof.
  intros Hr Hw Hh. unfold in_inset, pushed. cbn.
  pose proof (Hr (k + 2)%nat). pose proof (Hr (k + 3)%nat).
  split; nra.
Qed.

(** The creating loop, run [n] times from call [k] on. *)
Lemma loop_pushParticle (n : nat) (w h : R) (ps : list Particle.t)
      (rnd : nat -> R) (k : nat) :
  loop n (pushParticle w h) ps rnd k
  = (ps ++ map (fun i => pushed rnd w h (k + 5 * i)) (seq 0 n),
     (k + 5 * n)%nat).
Proof.
  revert ps k. induction n as [ | n IH ]; intros ps k.
  - cbn [loop seq map]. unfold ret. rewrite app_nil_r. f_equal. lia.
  - cbn [loop]. unfold bind at 1.
    assert (E : pushParticle w h ps rnd k
                = (ps ++ [pushed rnd w h k], (k + 5)%nat)).
    { unfold pushParticle, bind, random, ret, pushed.
      repeat f_equal; lia. }
    rewrite E, IH. rewrite <- app_assoc. f_equal; [ | lia ].
    f_equal. cbn [seq map app]. f_equal.
    + f_equal. lia.
    + rewrite <- seq_shift, map_map. apply map_ext. intros i.
      f_equal. lia.
Qed.

Lemma Forall_pushed (P : Particle.t -> Prop) (rnd : nat -> R) (w h : R)
      (k n : nat) :
  (forall j, P (pushed rnd w h j)) ->
  Forall P (map (fun i => pushed rnd w h (k + 5 * i)) (seq 0 n)).
Proof.
  intros HP. apply Forall_forall. intros p Hin.
  apply in_map_iff in Hin. destruct Hin as (i & <- & _). apply HP.
Qed.

(** The constructor, in closed form. *)
Lemma new_eq (w h : R) (count : Z) (rnd : nat -> R) (k : nat) :
  new w h count rnd k
  = (mk w h count 1.0 0.95
        (FlowField.new w h (Some "flow"%string) (fun i => rnd (k + i)%nat))
        (map (fun i => pushed rnd w h (k + 256 + 5 * i))
             (seq 0 (Z.to_nat count))),
     (k + 256 + 5 * Z.to_nat count)%nat).
Proof.
  unfold new, initParticles, newFlowField, bind.
  cbn [particleCount width height speed trailAlpha flowField].
  rewrite loop_pushParticle. reflexivity.
Qed.

(** X21.  The constructor, asked for [count >= 0] particles, makes
    [256 + 5 * count] calls of [Math.random()] and builds a flow-mode
    field at time 0 and exactly [count] particles, at rest and without
    history, all inside the 50-unit inset when the canvas is at least
    100 x 100. *)
Theorem new_system (w h : R) (count : Z) (rnd : nat -> R) (k : nat) :
  (0 <= count)%Z ->
  let s := fst (new w h count rnd k) in
  snd (new w h count rnd k) = (k + 256 + 5 * Z.to_nat count)%nat
  /\ Z.of_nat (List.length (particles s)) = particleCount s
  /\ particleCount s = count
  /\ FlowField.mode (flowField s) = "flow"%string
  /\ FlowField.time (flowField s) = 0
  /\ width s = w /\ height s = h /\ speed s = 1
  /\ Forall (at_rest w h) (particles s)
  /\ ((forall i, 0 <= rnd i < 1) -> 100 <= w -> 100 <= h ->
      Forall (in_inset w h) (particles s)).
Proof.
  intros Hc. rewrite new_eq. cbn [fst snd particles particleCount
    flowField width height speed FlowField.mode FlowField.time FlowField.new].
  rewrite length_map, length_seq.
  repeat split; try reflexivity; try lia; try lra.
  - apply Forall_pushed. intros j. apply pushed_at_rest.
  - intros Hr Hw Hh. apply Forall_pushed. intros j.
    now apply pushed_in_inset.
Qed.

Lemma new_system_witness :
  let s := fst (new 800 600 3 demo_draws 0%nat) in
  Z.of_nat (List.length (particles s)) = 3%Z
  /\ Forall (in_inset 800 600) (particles s).
Proof.
  destruct (new_system 800 600 3 demo_draws 0%nat ltac:(lia))
    as (_ & Hl & Hp & _ & _ & _ & _ & _ & _ & Hin).
  split; [ congruence | ].
  apply Hin; try lra. intros i. unfold demo_draws. lra.
Defined.

Lemma setParticleCount_eq (s : t) (count : Z) (rnd : nat -> R) (k : nat) :
  setParticleCount s count rnd k
  = if (particleCount s <? count)%Z then
      (mk (width s) (height s) count (speed s) (trailAlpha s) (flowField s)
          (particles s
           ++ map (fun i => pushed rnd (width s) (height s) (k + 5 * i))
                  (seq 0 (Z.to_nat (count - particleCount s)))),
       (k + 5 * Z.to_nat (count - particleCount s))%nat)
    else if (count <? particleCount s)%Z then
      (mk (width s) (height s) count (speed s) (trailAlpha s) (flowField s)
          (slice0 (particles s) count), k)
    else
      (mk (width s) (height s) count (speed s) (trailAlpha s) (flowField s)
          (particles s), k).
Proof.
  unfold setParticleCount. rewrite Z.gtb_ltb.
  destruct (particleCount s <? count)%Z.
  - unfold bind. rewrite loop_pushParticle. reflexivity.
  - destruct (count <? particleCount s)%Z; reflexivity.
Qed.

(** X22.  [setParticleCount], on a system whose [particleCount] is the
    length of its particle list, leaves exactly [count] particles for
    every [count >= 0]: shrinking keeps the first [count] particles and
    draws no random number, growing keeps all of them and appends
    particles at rest, five random draws each. *)
Theorem setParticleCount_length
  (s : t) (count : Z) (rnd : nat -> R) (k : nat) :
  (0 <= count)%Z ->
  Z.of_nat (List.length (particles s)) = particleCount s ->
  let s' := fst (setParticleCount s count rnd k) in
  let k' := snd (setParticleCount s count rnd k) in
  Z.of_nat (List.length (particles s')) = count
  /\ particleCount s' = count
  /\ flowField s' = flowField s
  /\ ((count <= particleCount s)%Z ->
      particles s' = firstn (Z.to_nat count) (particles s) /\ k' = k)
  /\ ((particleCount s <= count)%Z ->
      exists added,
        particles s' = particles s ++ added
        /\ Forall (at_rest (width s) (height s)) added
        /\ k' = (k + 5 * List.length added)%nat).
Proof.
  intros Hc Hinv s' k'. unfold s', k'. rewrite setParticleCount_eq.
  destruct (Z.ltb_spec (particleCount s) count) as [Hlt | Hge];
    [ | destruct (Z.ltb_spec count (particleCount s)) as [Hlt | Hge'] ];
    cbn [fst snd particles particleCount flowField];
    (split; [ | split; [ reflexivity | split; [ reflexivity | split ] ] ]).
  - rewrite length_app, length_map, length_seq. lia.
  - intros Hle. lia.
  - intros _.
    exists (map (fun i => pushed rnd (width s) (height s) (k + 5 * i))
                (seq 0 (Z.to_nat (count - particleCount s)))).
    split; [ reflexivity | ]. split.
    + apply Forall_pushed. intros j. apply pushed_at_rest.
    + now rewrite length_map, length_seq.
  - unfold slice0. destruct (Z.ltb_spec count 0); [ lia | ].
    rewrite length_firstn. lia.
  - intros _. unfold slice0. destruct (Z.ltb_spec count 0); [ lia | ].
    split; reflexivity.
  - intros Hle. lia.
  - lia.
  - intros _. split; [ | reflexivity ].
    rewrite firstn_all2; [ reflexivity | lia ].
  - intros _. exists []. rewrite app_nil_r. simpl.
    split; [ reflexivity | ]. split; [ constructor | lia ].
Qed.

Lemma setParticleCount_length_witness :
  let s := fst (new 800 600 3 demo_draws 0%nat) in
  Z.of_nat
    (List.length (particles (fst (setParticleCount s 5 demo_draws 0%nat))))
  = 5%Z.
Proof.
  destruct (setParticleCount_length (fst (new 800 600 3 demo_draws 0%nat)) 5
              demo_draws 0%nat ltac:(lia)) as (H & _).
  - rewrite new_eq. reflexivity.
  - exact H.
Defined.

Lemma getVector_sq (ff : FlowField.t) (x y : R) :
  let v := FlowField.getVector ff x y in
  Vec.x v * Vec.x v + Vec.y v * Vec.y v <= 1.
Proof.
  unfold FlowField.getVector. cbn [Vec.x Vec.y].
  set (a := FlowField.mouseBlend ff x y (FlowField.modeAngle ff x y)).
  pose proof (sin2_cos2 a) as H. unfold Rsqr in H. lra.
Qed.

(** The loop body of [update] on one particle. *)
Lemma stepParticle_framed (ff : FlowField.t) (sp : R) (p : Particle.t) :
  within_cap p -> framed (stepParticle ff sp p).
Proof.
  intros (HM & Hw & Hh & Hv). unfold stepParticle.
  set (force := FlowField.getVector ff (Particle.x p) (Particle.y p)).
  destruct (update_frame p force sp) as (Uw & Uh & Um & _).
  pose proof (update_speed_sq p force sp ltac:(lra)) as Hs.
  cbv zeta in Hs. rewrite HM in Hs.
  pose proof (update_inside p force sp) as Hin. unfold Particle.margin in Hin.
  destruct Hin as [Ix Iy]; [ lra | lra | ].
  pose proof (applyForce_speed p force Hv
                (getVector_sq ff (Particle.x p) (Particle.y p))) as Ha.
  unfold framed, within_cap. rewrite Uw, Uh, Um, update_hue, HM.
  repeat split; lra.
Qed.

Lemma frame_fields (s : t) :
  width (frame s) = width s /\ height (frame s) = height s
  /\ particleCount (frame s) = particleCount s /\ speed (frame s) = speed s
  /\ flowField (frame s) = FlowField.update (flowField s)
  /\ particles (frame s)
     = map (stepParticle (FlowField.update (flowField s)) (speed s))
           (particles s).
Proof. unfold frame, update. cbn. repeat split; reflexivity. Qed.

Lemma framed_within_cap (p : Particle.t) : framed p -> within_cap p.
Proof. now intros [H _]. Qed.

(** X23.  Frame after frame, [update] keeps the number of particles, and
    every particle that started within the speed cap on a canvas of at
    least 4 x 4 is, after each frame, within the cap, within the 2-unit
    margins and of a hue between 0 and 138; the field's time has moved by
    [timeSpeed] per frame. *)
Theorem frames_keep_particles (s : t) (n : nat) :
  Forall within_cap (particles s) ->
  let s' := Nat.iter (S n) frame s in
  List.length (particles s') = List.length (particles s)
  /\ particleCount s' = particleCount s
  /\ Forall framed (particles s')
  /\ flowField s' = Nat.iter (S n) FlowField.update (flowField s).
Proof.
  intros Hp. cbv zeta. induction n as [ | n IH ].
  - cbn [Nat.iter nat_rect].
    destruct (frame_fields s) as (_ & _ & Hc & _ & Hf & Hps).
    rewrite Hps, length_map. repeat split; try assumption.
    apply Forall_map. eapply Forall_impl; [ | exact Hp ].
    intros p. apply stepParticle_framed.
  - rewrite Nat.iter_succ. destruct IH as (Il & Ic & If & Iff).
    set (s1 := Nat.iter (S n) frame s) in *.
    destruct (frame_fields s1) as (_ & _ & Hc & _ & Hf & Hps).
    rewrite Hps, length_map, Hc, Hf, Iff.
    repeat split; try assumption.
    apply Forall_map. eapply Forall_impl; [ | exact If ].
    intros p Hq. apply stepParticle_framed, framed_within_cap, Hq.
Qed.

Lemma frames_keep_particles_witness :
  let s := fst (new 800 600 3 demo_draws 0%nat) in
  Forall framed (particles (Nat.iter 2 frame s)).
Proof.
  destruct (frames_keep_particles (fst (new 800 600 3 demo_draws 0%nat)) 1)
    as (_ & _ & H & _); [ | exact H ].
  rewrite new_eq. cbn [fst particles].
  apply Forall_pushed. intros j.
  unfold within_cap, pushed. cbn. repeat split; lra.
Defined.

Lemma setDims_fields (w h : R) (p : Particle.t) :
  Particle.width (setDims w h p) = w /\ Particle.height (setDims w h p) = h
  /\ Particle.maxSpeed (setDims w h p) = Particle.maxSpeed p.
Proof. repeat split; reflexivity. Qed.

(** X24.  After [resize] to a canvas of at least 4 x 4, the next frame
    brings every particle within the margins of the new canvas, wherever
    the old canvas had left it; the field is recentred on the new canvas
    and keeps its tables. *)
Theorem resize_then_frame (s : t) (w h : R) :
  4 <= w -> 4 <= h ->
  let s' := frame (resize s w h) in
  width s' = w /\ height s' = h
  /\ List.length (particles s') = List.length (particles s)
  /\ Forall (fun q => Particle.width q = w /\ Particle.height q = h
                      /\ 2 <= Particle.x q <= w - 2
                      /\ 2 <= Particle.y q <= h - 2) (particles s')
  /\ FlowField.mouseX (flowField s') = w / 2
  /\ FlowField.mouseY (flowField s') = h / 2
  /\ FlowField.perm (flowField s') = FlowField.perm (flowField s).
Proof.
  intros Hw Hh s'.
  destruct (frame_fields (resize s w h)) as (Fw & Fh & _ & _ & Ff & Fps).
  fold s' in Fw, Fh, Ff, Fps. rewrite Fw, Fh, Ff, Fps.
  cbn [resize width height particles flowField speed].
  rewrite !length_map.
  repeat split; try reflexivity.
  apply Forall_map, Forall_map, Forall_forall. intros p _.
  unfold stepParticle.
  set (q := setDims w h p). set (force := FlowField.getVector _ _ _).
  destruct (update_frame q force (speed s)) as (Uw & Uh & _).
  pose proof (update_inside q force (speed s)) as Hin.
  unfold Particle.margin in Hin.
  destruct Hin as [Ix Iy]; [ cbn; lra | cbn; lra | ].
  rewrite Uw, Uh. cbn [q setDims Particle.width Particle.height] in *.
  repeat split; lra.
Qed.

Lemma resize_then_frame_witness :
  let s := fst (new 800 600 3 demo_draws 0%nat) in
  Forall (fun q => Particle.width q = 100 /\ Particle.height q = 80
                   /\ 2 <= Particle.x q <= 100 - 2
                   /\ 2 <= Particle.y q <= 80 - 2)
         (particles (frame (resize s 100 80))).
Proof.
  destruct (resize_then_frame (fst (new 800 600 3 demo_draws 0%nat)) 100 80)
    as (_ & _ & _ & H & _); [ lra | lra | exact H ].
Defined.

(** [forEach(p => p.reset(w, h))] from call [k] on: every particle it
    leaves is some particle reset with two consecutive draws. *)
Lemma mapM_reset (w h : R) (l : list Particle.t) (rnd : nat -> R) (k : nat) :
  exists l',
    mapM (fun p => (r1 <- random ;; r2 <- random ;;
                    ret (Particle.reset p w h r1 r2))%random) l rnd k
    = (l', (k + 2 * List.length l)%nat)
    /\ List.length l' = List.length l
    /\ Forall (fun q => exists p j,
                 q = Particle.reset p w h (rnd j) (rnd (S j))) l'.
Proof.
  revert k. induction l as [ | p l IH ]; intros k.
  - exists []. cbn. unfold ret. repeat split; [ f_equal; lia | constructor ].
  - destruct (IH (S (S k))) as (l' & E & Hl & Hf).
    exists (Particle.reset p w h (rnd k) (rnd (S k)) :: l').
    split; [ | split ].
    + cbn [mapM]. unfold bind, random, ret in *. rewrite E.
      f_equal. cbn [List.length]. lia.
    + cbn [List.length]. lia.
    + constructor; [ | exact Hf ]. exists p, k. reflexivity.
Qed.

(** X25.  [reset] puts every particle at rest with an empty history on
    the system's canvas, inside the 50-unit inset when the canvas is at
    least 100 x 100; it keeps the number of particles and the field, and
    makes two calls of [Math.random()] per particle. *)
Theorem reset_system (s : t) (rnd : nat -> R) (k : nat) :
  let s' := fst (reset s rnd k) in
  snd (reset s rnd k) = (k + 2 * List.length (particles s))%nat
  /\ List.length (particles s') = List.length (particles s)
  /\ particleCount s' = particleCount s
  /\ flowField s' = flowField s
  /\ Forall (fun q => Particle.vx q = 0 /\ Particle.vy q = 0
                      /\ Particle.history q = []
                      /\ Particle.width q = width s
                      /\ Particle.height q = height s) (particles s')
  /\ ((forall i, 0 <= rnd i < 1) -> 100 <= width s -> 100 <= height s ->
      Forall (in_inset (width s) (height s)) (particles s')).
Proof.
  cbv zeta.
  destruct (mapM_reset (width s) (height s) (particles s) rnd k)
    as (l' & E & Hl & Hf).
  assert (Er : reset s rnd k
               = (mk (width s) (height s) (particleCount s) (speed s)
                     (trailAlpha s) (flowField s) l',
                  (k + 2 * List.length (particles s))%nat)).
  { unfold reset. unfold bind at 1. rewrite E. reflexivity. }
  rewrite Er. cbn [fst snd particles particleCount flowField].
  repeat split; try assumption.
  - eapply Forall_impl; [ | exact Hf ].
    intros q (p & j & ->). cbn. repeat split; reflexivity.
  - intros Hr Hw Hh. eapply Forall_impl; [ | exact Hf ].
    intros q (p & j & ->). unfold in_inset. cbn.
    pose proof (Hr j). pose proof (Hr (S j)). split; nra.
Qed.

Lemma reset_system_witness :
  let s := frame (fst (new 800 600 3 demo_draws 0%nat)) in
  Forall (in_inset 800 600) (particles (fst (reset s demo_draws 0%nat))).
Proof.
  destruct (reset_system (frame (fst (new 800 600 3 demo_draws 0%nat)))
              demo_draws 0%nat) as (_ & _ & _ & _ & _ & H).
  rewrite new_eq in H. cbn [fst frame update width height] in H.
  rewrite new_eq. cbn [fst frame update width height].
  apply H; try lra. intros i. unfold demo_draws. lra.
Defined.

(** X26.  What a frame draws for a particle that was within the margins,
    under a speed multiplier below 25: its dot, and, unless the step
    bounced, the segment from the position of before the step to the new
    one; the 50-unit distance test never withholds that segment. *)
Theorem drawParticle_after_update
  (p : Particle.t) (force : Vec.t) (sp : R) :
  Particle.maxSpeed p = 2 -> Particle.maxHistory p = 20%nat ->
  (List.length (Particle.history p) <= 20)%nat ->
  2 <= Particle.x p <= Particle.width p - 2 ->
  2 <= Particle.y p <= Particle.height p - 2 ->
  Rabs sp < 25 ->
  let st := Particle.update_step p force sp in
  let q := Particle.after st in
  let color :=
    hslToHex (sqrt (Particle.vx q * Particle.vx q
                    + Particle.vy q * Particle.vy q)
              / Particle.maxSpeed q * 180) 100 50 in
  drawParticle q
  = Circle (Particle.x q) (Particle.y q) 1.5 color 0.8
    :: (if Particle.bounced st then []
        else [ Line (Particle.x p) (Particle.y p)
                    (Particle.x q) (Particle.y q) 1 color 0.3 ]).
Proof.
  intros HM HN HL Hx Hy Hs st q color. unfold drawParticle. fold color.
  f_equal.
  pose proof (update_history p force sp) as Hh.
  unfold Particle.update in Hh. fold st in Hh. fold q in Hh. rewrite Hh.
  destruct (Particle.bounced st); [ reflexivity | ].
  destruct (pushHistory_bounded p HN HL) as [Hp _]. rewrite Hp.
  rewrite rev_unit. cbn [Vec.x Vec.y].
  pose proof (update_dist_sq p force sp ltac:(lra)) as Hd.
  unfold Particle.margin, Particle.update in Hd. fold st in Hd. fold q in Hd.
  specialize (Hd Hx Hy). rewrite HM in Hd.
  assert (Hlt : ltb (sqrt ((Particle.x q - Particle.x p)
                           * (Particle.x q - Particle.x p)
                           + (Particle.y q - Particle.y p)
                             * (Particle.y q - Particle.y p))) 50 = true).
  { apply ltb_true. pose proof (Rabs_pos sp) as Hpos.
    apply Rle_lt_trans with (2 * Rabs sp); [ | lra ].
    apply sqrt_le_of_sq; [ lra | exact Hd ]. }
  rewrite Hlt. reflexivity.
Qed.

Lemma drawParticle_after_update_witness :
  let st := Particle.update_step demo_particle unit_x 1 in
  let q := Particle.after st in
  let color :=
    hslToHex (sqrt (Particle.vx q * Particle.vx q
                    + Particle.vy q * Particle.vy q)
              / Particle.maxSpeed q * 180) 100 50 in
  drawParticle q
  = Circle (Particle.x q) (Particle.y q) 1.5 color 0.8
    :: (if Particle.bounced st then []
        else [ Line (Particle.x demo_particle) (Particle.y demo_particle)
                    (Particle.x q) (Particle.y q) 1 color 0.3 ]).
Proof.
  apply (drawParticle_after_update demo_particle unit_x 1);
    try reflexivity; cbn; try lra; try lia.
  rewrite Rabs_R1. lra.
Defined.

End SystemProperties.
